(** * FIFO container adapters of dmitigr::que

    A shallow embedding of [Fifo_array<T, N>] (src/fifo_array.hpp) and of
    [Basic_fifo_string<CharT>] (src/fifo_string.hpp), followed by the
    properties of the two adapters.

    Conventions of the embedding:
    - [size_type] is [std::size_t]; its values are integers in
      [0, 2^64) and its arithmetic wraps around, which is written out
      with [SizeT.wrap];
    - [std::array<T, N>] is a [list T] of length [N], read with stdpp's
      lookup [!!] and written with stdpp's insert;
    - [std::basic_string<CharT>] is a [list CharT];
    - a member function whose C++ behaviour is undefined on some state
      (an index outside the buffer) or which throws there returns
      [None] on that state; a member function that is defined on every
      state is a total function. *)

From Stdlib Require Import ZArith Lia Ascii String.
From stdpp Require Import base tactics option list.

Local Open Scope Z_scope.

(** ** The unsigned index type *)

Module SizeT.

Definition bits : Z := 64.

Definition modulus : Z := 2 ^ bits.

(** The largest value, [SIZE_MAX], which is also [npos] of a string. *)
Definition max : Z := modulus - 1.

Definition wrap (z : Z) : Z := z mod modulus.

Definition add (a b : Z) : Z := wrap (a + b).

Definition sub (a b : Z) : Z := wrap (a - b).

Definition in_range (z : Z) : Prop := 0 <= z <= max.

End SizeT.

(** Element [i] of a contiguous buffer, through an iterator
    [begin() + i]; outside the buffer the read is undefined. *)
Definition deref {A : Type} (d : list A) (i : Z) : option A :=
  if decide (0 <= i) then d !! Z.to_nat i else None.

(** ** The fixed adapter: src/fifo_array.hpp *)

Module Fifo_array.

Section Adapter.

Context {T : Type}.

(** The template argument [N], which is what [data_.size()] returns. *)
Variable N : Z.

Record t : Type := Mk {
  data_ : list T;
  pop_offset_ : Z;
  push_offset_ : Z
}.

(** [Fifo_array()]: both cursors are value-initialised to zero, the
    array holds whatever [d] it was created with. *)
Definition make (d : list T) : t := Mk d 0 0.

(** [data()]: the buffer seen from [data_.data() + pop_offset_]. *)
Definition data (s : t) : list T := drop (Z.to_nat (pop_offset_ s)) (data_ s).

(** [back()]: [*(data_.begin() + push_offset_ - 1)]. *)
Definition back (s : t) : option T := deref (data_ s) (push_offset_ s - 1).

(** [front()]: [*(data_.begin() + pop_offset_)]. *)
Definition front (s : t) : option T := deref (data_ s) (pop_offset_ s).

(** [push_back(value)]: [data_[push_offset_++] = value]; the write is
    undefined outside the array. *)
Definition push_back (value : T) (s : t) : option t :=
  if decide (0 <= push_offset_ s < N) then
    Some (Mk (<[Z.to_nat (push_offset_ s) := value]> (data_ s))
             (pop_offset_ s)
             (SizeT.add (push_offset_ s) 1))
  else None.

(** [emplace_back(value)] calls [push_back(value)]. *)
Definition emplace_back (value : T) (s : t) : option t := push_back value s.

(** [pop_front()]: [pop_offset_ = std::min(pop_offset_ + 1, data_.size())]. *)
Definition pop_front (s : t) : t :=
  Mk (data_ s) (Z.min (SizeT.add (pop_offset_ s) 1) N) (push_offset_ s).

(** [unpop_front()]: [if (pop_offset_) --pop_offset_]. *)
Definition unpop_front (s : t) : t :=
  if decide (pop_offset_ s = 0) then s
  else Mk (data_ s) (SizeT.sub (pop_offset_ s) 1) (push_offset_ s).

(** [unpop_all()]: [pop_offset_ = 0]. *)
Definition unpop_all (s : t) : t := Mk (data_ s) 0 (push_offset_ s).

(** [size()]: [push_offset_ - pop_offset_], in [size_type]. *)
Definition size (s : t) : Z := SizeT.sub (push_offset_ s) (pop_offset_ s).

(** [empty()]: [!size()]. *)
Definition empty (s : t) : bool := bool_decide (size s = 0).

(** [clear()]: [pop_offset_ = push_offset_ = 0]. *)
Definition clear (s : t) : t := Mk (data_ s) 0 0.

(** [swap(other)]: the three members are swapped one by one; the pair is
    ([*this], [other]) after the call. *)
Definition swap (s other : t) : t * t :=
  (Mk (data_ other) (pop_offset_ other) (push_offset_ other),
   Mk (data_ s) (pop_offset_ s) (push_offset_ s)).

(** The live elements, in queue order: the [size()] elements from
    [data()] on. *)
Definition elements (s : t) : list T := take (Z.to_nat (size s)) (data s).

(** The calls that change one adapter. *)
Inductive op : Type :=
  | Push_back (value : T)
  | Pop_front
  | Unpop_front
  | Unpop_all
  | Clear.

(** One call; [None] when the call is undefined on the state. *)
Definition run (o : op) (s : t) : option t :=
  match o with
  | Push_back value => push_back value s
  | Pop_front => Some (pop_front s)
  | Unpop_front => Some (unpop_front s)
  | Unpop_all => Some (unpop_all s)
  | Clear => Some (clear s)
  end.

(** [push_back] called on each value of [vs] in turn. *)
Fixpoint push_all (vs : list T) (s : t) : option t :=
  match vs with
  | [] => Some s
  | v :: vs' =>
      match push_back v s with
      | Some s' => push_all vs' s'
      | None => None
      end
  end.

(** [pop_front] called [n] times. *)
Fixpoint pop_n (n : nat) (s : t) : t :=
  match n with
  | O => s
  | S n' => pop_n n' (pop_front s)
  end.

(** [unpop_front] called [n] times. *)
Fixpoint unpop_n (n : nat) (s : t) : t :=
  match n with
  | O => s
  | S n' => unpop_n n' (unpop_front s)
  end.

(** The calls of [os] made in turn; [None] as soon as one of them is
    not defined. *)
Fixpoint run_all (os : list op) (s : t) : option t :=
  match os with
  | [] => Some s
  | o :: os' =>
      match run o s with
      | Some s' => run_all os' s'
      | None => None
      end
  end.

(** What the types of the members give: an array of [N] elements and
    two [size_type] values. *)
Definition typed (s : t) : Prop :=
  Z.of_nat (length (data_ s)) = N
  /\ SizeT.in_range (pop_offset_ s)
  /\ SizeT.in_range (push_offset_ s).

(** Both cursors inside the array. *)
Definition bounded (s : t) : Prop :=
  Z.of_nat (length (data_ s)) = N
  /\ 0 <= pop_offset_ s <= N
  /\ 0 <= push_offset_ s <= N.

(** The relation between the cursors that the data model asks for. *)
Definition consistent (s : t) : Prop :=
  Z.of_nat (length (data_ s)) = N
  /\ 0 <= pop_offset_ s <= push_offset_ s
  /\ push_offset_ s <= N.

(** The condition under which a call is meant to be made: [push_back]
    needs a free slot, [pop_front] a live element. *)
Definition pre (o : op) (s : t) : Prop :=
  match o with
  | Push_back _ => push_offset_ s < N
  | Pop_front => pop_offset_ s < push_offset_ s
  | Unpop_front | Unpop_all | Clear => True
  end.

(** The states that a program reaches when it respects [pre]. *)
Inductive reachable : t -> Prop :=
  | reachable_make (d : list T) :
      Z.of_nat (length d) = N -> reachable (make d)
  | reachable_run (o : op) (s s' : t) :
      reachable s -> pre o s -> run o s = Some s' -> reachable s'
  | reachable_swap_l (a b : t) :
      reachable a -> reachable b -> reachable (fst (swap a b))
  | reachable_swap_r (a b : t) :
      reachable a -> reachable b -> reachable (snd (swap a b)).

(** The states that calls produce when only the defined ones are made:
    [pop_front] may be called on an empty adapter. *)
Inductive produced : t -> Prop :=
  | produced_make (d : list T) :
      Z.of_nat (length d) = N -> produced (make d)
  | produced_run (o : op) (s s' : t) :
      produced s -> run o s = Some s' -> produced s'
  | produced_swap_l (a b : t) :
      produced a -> produced b -> produced (fst (swap a b))
  | produced_swap_r (a b : t) :
      produced a -> produced b -> produced (snd (swap a b)).

End Adapter.

Arguments t T : clear implicits.
Arguments op T : clear implicits.

End Fifo_array.

(** ** The growable adapter: src/fifo_string.hpp *)

Module Fifo_string.

Section Adapter.

Context {CharT : Type}.

(** [max_size()] of the underlying [std::basic_string]: appending to a
    string of that length throws [std::length_error]. *)
Variable max_size : Z.

Record t : Type := Mk {
  data_ : list CharT;
  offset_ : Z
}.

(** [data_.size()]. *)
Definition data_size (s : t) : Z := Z.of_nat (length (data_ s)).

(** [Basic_fifo_string(args...)]: the string is built from the
    arguments, here its value [d]; the cursor is value-initialised. *)
Definition make (d : list CharT) : t := Mk d 0.

(** [size()]: [data_.size() - offset_], in [size_type]. *)
Definition size (s : t) : Z := SizeT.sub (data_size s) (offset_ s).

(** [data()]: the buffer seen from [data_.data() + offset_]. *)
Definition data (s : t) : list CharT := drop (Z.to_nat (offset_ s)) (data_ s).

(** [view()]: the string view [{data(), size()}]. *)
Definition view (s : t) : list CharT := take (Z.to_nat (size s)) (data s).

(** [back()]: [data_.back()], undefined on an empty string. *)
Definition back (s : t) : option CharT := list.last (data_ s).

(** [front()]: [*(data_.begin() + offset_)]. *)
Definition front (s : t) : option CharT := deref (data_ s) (offset_ s).

(** [push_back(value)]: [data_.push_back(value)]. *)
Definition push_back (value : CharT) (s : t) : option t :=
  if decide (data_size s < max_size) then
    Some (Mk (data_ s ++ [value]) (offset_ s))
  else None.

(** [emplace_back(value)] calls [push_back(value)]. *)
Definition emplace_back (value : CharT) (s : t) : option t :=
  push_back value s.

(** [pop_front()]: [offset_ = std::min(offset_ + 1, data_.size())]. *)
Definition pop_front (s : t) : t :=
  Mk (data_ s) (Z.min (SizeT.add (offset_ s) 1) (data_size s)).

(** [unpop_front()]: [if (offset_) --offset_]. *)
Definition unpop_front (s : t) : t :=
  if decide (offset_ s = 0) then s
  else Mk (data_ s) (SizeT.sub (offset_ s) 1).

(** [unpop_all()]: [offset_ = 0]. *)
Definition unpop_all (s : t) : t := Mk (data_ s) 0.

(** [empty()]: [!size()]. *)
Definition empty (s : t) : bool := bool_decide (size s = 0).

(** [clear()]: [data_.clear(); offset_ = 0]. *)
Definition clear (s : t) : t := Mk [] 0.

(** [swap(other)]: the pair is ([*this], [other]) after the call. *)
Definition swap (s other : t) : t * t :=
  (Mk (data_ other) (offset_ other), Mk (data_ s) (offset_ s)).

Inductive op : Type :=
  | Push_back (value : CharT)
  | Pop_front
  | Unpop_front
  | Unpop_all
  | Clear.

(** One call; [None] when [push_back] throws. *)
Definition run (o : op) (s : t) : option t :=
  match o with
  | Push_back value => push_back value s
  | Pop_front => Some (pop_front s)
  | Unpop_front => Some (unpop_front s)
  | Unpop_all => Some (unpop_all s)
  | Clear => Some (clear s)
  end.

(** [push_back] called on each value of [vs] in turn. *)
Fixpoint push_all (vs : list CharT) (s : t) : option t :=
  match vs with
  | [] => Some s
  | v :: vs' =>
      match push_back v s with
      | Some s' => push_all vs' s'
      | None => None
      end
  end.

(** [pop_front] called [n] times. *)
Fixpoint pop_n (n : nat) (s : t) : t :=
  match n with
  | O => s
  | S n' => pop_n n' (pop_front s)
  end.

(** [unpop_front] called [n] times. *)
Fixpoint unpop_n (n : nat) (s : t) : t :=
  match n with
  | O => s
  | S n' => unpop_n n' (unpop_front s)
  end.

(** The calls of [os] made in turn; [None] as soon as one of them is
    not defined. *)
Fixpoint run_all (os : list op) (s : t) : option t :=
  match os with
  | [] => Some s
  | o :: os' =>
      match run o s with
      | Some s' => run_all os' s'
      | None => None
      end
  end.

(** What the types of the members give: a string no longer than
    [max_size()] and a [size_type] value. *)
Definition typed (s : t) : Prop :=
  data_size s <= max_size /\ SizeT.in_range (offset_ s).

(** The cursor is inside the string or at its end. *)
Definition inv (s : t) : Prop := offset_ s <= data_size s.

(** The states that a program reaches, whatever it calls. *)
Inductive reachable : t -> Prop :=
  | reachable_make (d : list CharT) :
      Z.of_nat (length d) <= max_size -> reachable (make d)
  | reachable_run (o : op) (s s' : t) :
      reachable s -> run o s = Some s' -> reachable s'
  | reachable_swap_l (a b : t) :
      reachable a -> reachable b -> reachable (fst (swap a b))
  | reachable_swap_r (a b : t) :
      reachable a -> reachable b -> reachable (snd (swap a b)).

End Adapter.

Arguments t CharT : clear implicits.
Arguments op CharT : clear implicits.

End Fifo_string.

(** ** The scenario of the growable adapter over [char] *)

Module Scenario.

Import Fifo_string.

(** A default-constructed [Fifo_string]. *)
Definition fresh : t ascii := make [].

(** After [push_back('a')], [push_back('b')], [push_back('c')]. *)
Definition pushed (max_size : Z) : option (t ascii) :=
  push_all max_size ["a"; "b"; "c"]%char fresh.

(** After two further calls of [pop_front]. *)
Definition popped (max_size : Z) : option (t ascii) :=
  pop_n 2 <$> pushed max_size.

(** After a further call of [unpop_all]. *)
Definition unpopped (max_size : Z) : option (t ascii) :=
  unpop_all <$> popped max_size.

(** After a further call of [clear]. *)
Definition cleared (max_size : Z) : option (t ascii) :=
  clear <$> unpopped max_size.

End Scenario.

(** ** Facts about [size_type] arithmetic *)

Module SizeT_facts.

Lemma modulus_value : SizeT.modulus = 18446744073709551616.
Proof. reflexivity. Qed.

Lemma wrap_small (z : Z) : 0 <= z <= SizeT.max -> SizeT.wrap z = z.
Proof.
  unfold SizeT.wrap, SizeT.max. rewrite modulus_value. intros Hz.
  apply Z.mod_small. lia.
Qed.

Lemma add_small (a b : Z) : 0 <= a + b <= SizeT.max -> SizeT.add a b = a + b.
Proof. apply wrap_small. Qed.

Lemma sub_small (a b : Z) : 0 <= a - b <= SizeT.max -> SizeT.sub a b = a - b.
Proof. apply wrap_small. Qed.

Lemma sub_diag (a : Z) : SizeT.sub a a = 0.
Proof. unfold SizeT.sub. rewrite Z.sub_diag. reflexivity. Qed.

(** The difference of two [size_type] values is zero only when they are
    equal. *)
Lemma sub_eq_0 (a b : Z) :
  SizeT.in_range a -> SizeT.in_range b -> SizeT.sub a b = 0 -> a = b.
Proof.
  unfold SizeT.in_range, SizeT.sub, SizeT.wrap, SizeT.max.
  rewrite modulus_value. intros Ha Hb Hs.
  apply Z.mod_divide in Hs; [| lia]. destruct Hs as [k Hk]. lia.
Qed.

End SizeT_facts.

Lemma deref_nonneg {A : Type} (d : list A) (i : Z) :
  0 <= i -> deref d i = d !! Z.to_nat i.
Proof. intros Hi. unfold deref. by case_decide. Qed.

(** ** Facts about the fixed adapter *)

Module Fifo_array_facts.

Import Fifo_array.

Ltac unfold_ops :=
  unfold run, push_back, pop_front, unpop_front, unpop_all, clear, swap,
    make, size, empty, front, back, elements, data in *.

Ltac unfold_preds :=
  unfold typed, bounded, consistent, pre, SizeT.in_range in *.

Section Facts.

Context {T : Type}.

Variable N : Z.

(** An array of [N] elements next to two cursors is an object, so its
    size in bytes is a [size_type] value and [N] is below [SIZE_MAX]. *)
Hypothesis N_fits : 0 <= N < SizeT.max.

Implicit Types (s a b : t T) (d vs : list T) (v : T) (o : op T).

Lemma array_eta s : Mk (data_ s) (pop_offset_ s) (push_offset_ s) = s.
Proof. by destruct s. Qed.

Lemma array_swap_pair a b : swap a b = (b, a).
Proof. unfold swap. by rewrite !array_eta. Qed.

Lemma array_clear_make s : clear s = make (data_ s).
Proof. reflexivity. Qed.

(** *** The cursor after [pop_front] *)

Lemma array_pop_front_offset s :
  0 <= pop_offset_ s < SizeT.max ->
  pop_offset_ (pop_front N s) = Z.min (pop_offset_ s + 1) N.
Proof.
  intros Hp. unfold pop_front; simpl.
  rewrite SizeT_facts.add_small by lia. reflexivity.
Qed.

Lemma array_pop_front_live s :
  0 <= pop_offset_ s < N ->
  pop_front N s = Mk (data_ s) (pop_offset_ s + 1) (push_offset_ s).
Proof.
  intros Hp. unfold pop_front.
  rewrite SizeT_facts.add_small by lia. f_equal. lia.
Qed.

Lemma array_unpop_front_positive s :
  0 < pop_offset_ s <= SizeT.max ->
  unpop_front s = Mk (data_ s) (pop_offset_ s - 1) (push_offset_ s).
Proof.
  intros Hp. unfold unpop_front. case_decide; [lia |].
  rewrite SizeT_facts.sub_small by lia. reflexivity.
Qed.

Lemma array_unpop_pop s :
  0 <= pop_offset_ s < N -> unpop_front (pop_front N s) = s.
Proof.
  intros Hp. rewrite array_pop_front_live by done.
  rewrite array_unpop_front_positive by (simpl; lia). simpl.
  replace (pop_offset_ s + 1 - 1) with (pop_offset_ s) by lia. apply array_eta.
Qed.

(** *** The cursors never leave the array *)

Lemma typed_of_bounded s : bounded N s -> typed N s.
Proof. unfold_preds. lia. Qed.

Lemma bounded_of_consistent s : consistent N s -> bounded N s.
Proof. unfold_preds. lia. Qed.

Lemma bounded_make d : Z.of_nat (length d) = N -> bounded N (make d).
Proof. unfold_preds. simpl. lia. Qed.

Lemma bounded_run o s s' : bounded N s -> run N o s = Some s' -> bounded N s'.
Proof.
  intros (Hlen & Hpop & Hpush) Hrun. destruct o; unfold_ops.
  - case_decide; [| done]. simplify_eq. unfold bounded; simpl.
    rewrite length_insert, SizeT_facts.add_small by lia. lia.
  - simplify_eq. unfold bounded; simpl.
    rewrite SizeT_facts.add_small by lia. lia.
  - case_decide; simplify_eq; unfold bounded; simpl; [lia |].
    rewrite SizeT_facts.sub_small by lia. lia.
  - simplify_eq. unfold bounded; simpl. lia.
  - simplify_eq. unfold bounded; simpl. lia.
Qed.

Lemma bounded_swap a b :
  bounded N a -> bounded N b ->
  bounded N (fst (swap a b)) /\ bounded N (snd (swap a b)).
Proof. rewrite array_swap_pair. simpl. tauto. Qed.

Lemma bounded_produced s : produced N s -> bounded N s.
Proof.
  induction 1 as [d Hd | o s s' _ IH Hrun | a b _ IHa _ IHb | a b _ IHa _ IHb].
  - by apply bounded_make.
  - by eapply bounded_run.
  - by apply bounded_swap.
  - by apply bounded_swap.
Qed.

(** *** The relation between the cursors *)

Lemma consistent_make d : Z.of_nat (length d) = N -> consistent N (make d).
Proof. unfold_preds. simpl. lia. Qed.

Lemma push_back_defined v s :
  0 <= push_offset_ s < N ->
  push_back N v s =
    Some (Mk (<[Z.to_nat (push_offset_ s) := v]> (data_ s))
             (pop_offset_ s) (push_offset_ s + 1)).
Proof.
  intros Hp. unfold push_back. case_decide; [| lia].
  rewrite SizeT_facts.add_small by lia. reflexivity.
Qed.

Lemma consistent_push_back v s :
  consistent N s -> push_offset_ s < N ->
  exists s', push_back N v s = Some s' /\ consistent N s'.
Proof.
  intros (Hlen & Hpop & Hpush) Hfree.
  rewrite push_back_defined by lia. eexists; split; [reflexivity |].
  unfold consistent; simpl. rewrite length_insert. lia.
Qed.

Lemma consistent_pop_front s :
  consistent N s -> pop_offset_ s < push_offset_ s ->
  consistent N (pop_front N s).
Proof.
  intros (Hlen & Hpop & Hpush) Hlive. rewrite array_pop_front_live by lia.
  unfold consistent; simpl. lia.
Qed.

(** [pop_front] keeps the relation exactly when a live element is left
    or the push cursor is at the end of the array. *)
Lemma consistent_pop_front_iff s :
  consistent N s ->
  consistent N (pop_front N s)
  <-> pop_offset_ s < push_offset_ s \/ push_offset_ s = N.
Proof.
  intros (Hlen & Hpop & Hpush). unfold consistent, pop_front; simpl.
  rewrite SizeT_facts.add_small by lia. lia.
Qed.

Lemma consistent_unpop_front s : consistent N s -> consistent N (unpop_front s).
Proof.
  intros (Hlen & Hpop & Hpush). unfold unpop_front.
  case_decide; unfold consistent; simpl; [lia |].
  rewrite SizeT_facts.sub_small by lia. lia.
Qed.

Lemma consistent_unpop_all s : consistent N s -> consistent N (unpop_all s).
Proof. unfold_preds. simpl. lia. Qed.

Lemma consistent_clear s : consistent N s -> consistent N (clear s).
Proof. unfold_preds. simpl. lia. Qed.

Lemma consistent_swap a b :
  consistent N a -> consistent N b ->
  consistent N (fst (swap a b)) /\ consistent N (snd (swap a b)).
Proof. rewrite array_swap_pair. simpl. tauto. Qed.

Lemma consistent_run o s s' :
  consistent N s -> pre N o s -> run N o s = Some s' -> consistent N s'.
Proof.
  intros Hc Hpre Hrun. destruct o; simpl in Hpre, Hrun.
  - destruct (consistent_push_back value s Hc Hpre) as (s'' & Hs'' & Hc'').
    congruence.
  - simplify_eq. by apply consistent_pop_front.
  - simplify_eq. by apply consistent_unpop_front.
  - simplify_eq. by apply consistent_unpop_all.
  - simplify_eq. by apply consistent_clear.
Qed.

Lemma consistent_reachable s : reachable N s -> consistent N s.
Proof.
  induction 1 as [d Hd | o s s' _ IH Hpre Hrun | a b _ IHa _ IHb | a b _ IHa _ IHb].
  - by apply consistent_make.
  - by eapply consistent_run.
  - by apply consistent_swap.
  - by apply consistent_swap.
Qed.

(** *** Runs of calls *)

Lemma pop_n_frame n s :
  data_ (pop_n N n s) = data_ s /\ push_offset_ (pop_n N n s) = push_offset_ s.
Proof.
  revert s. induction n as [| n IH]; intros s; simpl; [done |].
  destruct (IH (pop_front N s)) as [-> ->]. done.
Qed.

(** [k] pushes write the [k] values, in order, into the slots from
    [push_offset_] on, and move [push_offset_] by [k]. *)
Lemma array_push_all_spec vs s :
  Z.of_nat (length (data_ s)) = N ->
  0 <= push_offset_ s ->
  push_offset_ s + Z.of_nat (length vs) <= N ->
  push_all N vs s =
    Some (Mk (take (Z.to_nat (push_offset_ s)) (data_ s) ++ vs
              ++ drop (Z.to_nat (push_offset_ s) + length vs) (data_ s))
             (pop_offset_ s)
             (push_offset_ s + Z.of_nat (length vs))).
Proof.
  revert s. induction vs as [| v vs IH]; intros s Hlen Hp Hroom.
  - simpl. rewrite Nat.add_0_r, take_drop, Z.add_0_r. by rewrite array_eta.
  - simpl length in *. simpl push_all.
    rewrite push_back_defined by lia.
    rewrite IH; simpl; [| rewrite length_insert; lia | lia | lia].
    set (p := Z.to_nat (push_offset_ s)).
    assert (Hp1 : Z.to_nat (push_offset_ s + 1) = S p) by (subst p; lia).
    assert (Hin : (p < length (data_ s))%nat) by (subst p; lia).
    rewrite Hp1.
    rewrite (take_S_r _ p v) by (by apply list_lookup_insert_eq).
    rewrite take_insert. case_decide; [lia |].
    rewrite drop_insert_lt by lia.
    rewrite <- app_assoc. simpl.
    replace (p + S (length vs))%nat with (S (p + length vs)) by lia.
    do 2 f_equal. lia.
Qed.

Lemma push_all_make vs d :
  Z.of_nat (length d) = N ->
  Z.of_nat (length vs) <= N ->
  push_all N vs (make d) =
    Some (Mk (vs ++ drop (length vs) d) 0 (Z.of_nat (length vs))).
Proof.
  intros Hd Hvs. rewrite array_push_all_spec by (simpl; lia). reflexivity.
Qed.

(** What is seen of an adapter whose live region is the prefix [vs]. *)
Lemma prefix_size vs rest :
  Z.of_nat (length vs) <= N ->
  size (Mk (vs ++ rest) 0 (Z.of_nat (length vs))) = Z.of_nat (length vs).
Proof.
  intros Hvs. unfold size; simpl. rewrite SizeT_facts.sub_small by lia. lia.
Qed.

Lemma prefix_elements vs rest :
  Z.of_nat (length vs) <= N ->
  elements (Mk (vs ++ rest) 0 (Z.of_nat (length vs))) = vs.
Proof.
  intros Hvs. unfold elements. rewrite prefix_size by done.
  unfold data; simpl. rewrite drop_0, Nat2Z.id. apply take_app_length.
Qed.

Lemma prefix_front vs rest :
  vs <> [] -> front (Mk (vs ++ rest) 0 (Z.of_nat (length vs))) = head vs.
Proof.
  intros Hne. unfold front; simpl. destruct vs; done.
Qed.

Lemma prefix_back vs rest :
  vs <> [] -> back (Mk (vs ++ rest) 0 (Z.of_nat (length vs))) = list.last vs.
Proof.
  intros Hne. unfold back; simpl.
  assert (Hpos : (0 < length vs)%nat) by (destruct vs; [done | simpl; lia]).
  rewrite deref_nonneg by lia.
  rewrite lookup_app_l by lia. rewrite last_lookup. f_equal. lia.
Qed.

End Facts.

End Fifo_array_facts.

(** ** Facts about the growable adapter *)

Module Fifo_string_facts.

Import Fifo_string.

Ltac unfold_ops :=
  unfold run, push_back, pop_front, unpop_front, unpop_all, clear, swap,
    make, size, empty, front, back, view, data, data_size in *.

Section Facts.

Context {CharT : Type}.

Variable max_size : Z.

(** [max_size()] is below [npos], the largest [size_type] value. *)
Hypothesis max_size_fits : 0 <= max_size < SizeT.max.

Implicit Types (s a b : t CharT) (d vs : list CharT) (v : CharT) (o : op CharT).

Lemma string_eta s : Mk (data_ s) (offset_ s) = s.
Proof. by destruct s. Qed.

Lemma string_swap_pair a b : swap a b = (b, a).
Proof. unfold swap. by rewrite !string_eta. Qed.

Lemma string_clear_make s : clear s = make [].
Proof. reflexivity. Qed.

Lemma data_size_nonneg s : 0 <= data_size s.
Proof. unfold data_size. lia. Qed.

(** *** The cursor after [pop_front] *)

Lemma string_pop_front_offset s :
  0 <= offset_ s < SizeT.max ->
  offset_ (pop_front s) = Z.min (offset_ s + 1) (data_size s).
Proof.
  intros Ho. unfold pop_front; simpl.
  rewrite SizeT_facts.add_small by lia. reflexivity.
Qed.

Lemma string_pop_front_live s :
  data_size s <= SizeT.max -> 0 <= offset_ s < data_size s ->
  pop_front s = Mk (data_ s) (offset_ s + 1).
Proof.
  intros Hd Ho. unfold pop_front.
  rewrite SizeT_facts.add_small by lia. f_equal. lia.
Qed.

Lemma pop_front_at_end s :
  data_size s < SizeT.max -> offset_ s = data_size s -> pop_front s = s.
Proof.
  intros Hd Ho. pose proof (data_size_nonneg s). unfold pop_front.
  rewrite SizeT_facts.add_small by lia.
  rewrite Z.min_r by lia. rewrite <- Ho. apply string_eta.
Qed.

Lemma string_unpop_front_positive s :
  0 < offset_ s <= SizeT.max -> unpop_front s = Mk (data_ s) (offset_ s - 1).
Proof.
  intros Ho. unfold unpop_front. case_decide; [lia |].
  rewrite SizeT_facts.sub_small by lia. reflexivity.
Qed.

Lemma string_unpop_pop s :
  data_size s <= SizeT.max -> 0 <= offset_ s < data_size s ->
  unpop_front (pop_front s) = s.
Proof.
  intros Hd Ho. rewrite string_pop_front_live by done.
  rewrite string_unpop_front_positive by (simpl; lia). simpl.
  replace (offset_ s + 1 - 1) with (offset_ s) by lia. apply string_eta.
Qed.

(** *** The cursor never leaves the string *)

Lemma size_exact s :
  typed max_size s -> inv s -> size s = data_size s - offset_ s.
Proof.
  intros (Hd & Ho) Hi. unfold SizeT.in_range, inv in *.
  unfold size. apply SizeT_facts.sub_small. lia.
Qed.

Lemma empty_at_end s :
  typed max_size s -> empty s = true -> offset_ s = data_size s.
Proof.
  intros (Hd & Ho) He. pose proof (data_size_nonneg s).
  unfold empty in He. apply bool_decide_eq_true in He.
  symmetry. apply SizeT_facts.sub_eq_0; [| done | done].
  unfold SizeT.in_range. lia.
Qed.

Lemma good_make d :
  Z.of_nat (length d) <= max_size ->
  typed max_size (make d) /\ inv (make d).
Proof.
  intros Hd. unfold typed, inv, SizeT.in_range, data_size; simpl.
  unfold SizeT.max in *. rewrite SizeT_facts.modulus_value in *. lia.
Qed.

Lemma good_run o s s' :
  typed max_size s -> inv s -> run max_size o s = Some s' ->
  typed max_size s' /\ inv s'.
Proof.
  intros (Hd & Ho) Hi Hrun. pose proof (data_size_nonneg s) as Hn.
  unfold SizeT.in_range, inv in *.
  destruct o; simpl in Hrun.
  - unfold push_back in Hrun. case_decide; [| done]. simplify_eq.
    unfold typed, inv, SizeT.in_range, data_size in *; simpl.
    rewrite length_app; simpl. lia.
  - simplify_eq. unfold typed, inv, SizeT.in_range; simpl.
    rewrite SizeT_facts.add_small by lia.
    change (data_size (pop_front s)) with (data_size s). lia.
  - simplify_eq. unfold unpop_front.
    case_decide; unfold typed, inv, SizeT.in_range; simpl; [lia |].
    rewrite SizeT_facts.sub_small by lia.
    change (data_size (Mk (data_ s) (offset_ s - 1))) with (data_size s). lia.
  - simplify_eq. unfold typed, inv, SizeT.in_range; simpl.
    change (data_size (unpop_all s)) with (data_size s). lia.
  - simplify_eq. unfold typed, inv, SizeT.in_range, data_size; simpl. lia.
Qed.

Lemma good_swap a b :
  typed max_size a /\ inv a -> typed max_size b /\ inv b ->
  (typed max_size (fst (swap a b)) /\ inv (fst (swap a b)))
  /\ (typed max_size (snd (swap a b)) /\ inv (snd (swap a b))).
Proof. rewrite string_swap_pair. simpl. tauto. Qed.

Lemma good_reachable s : reachable max_size s -> typed max_size s /\ inv s.
Proof.
  induction 1 as [d Hd | o s s' _ IH Hrun | a b _ IHa _ IHb | a b _ IHa _ IHb].
  - by apply good_make.
  - destruct IH. by eapply good_run.
  - by apply good_swap.
  - by apply good_swap.
Qed.

(** *** Runs of calls *)

Lemma pop_n_data n s : data_ (pop_n n s) = data_ s.
Proof.
  revert s. induction n as [| n IH]; intros s; simpl; [done |].
  by rewrite IH.
Qed.

Lemma string_push_all_spec vs s :
  data_size s + Z.of_nat (length vs) <= max_size ->
  push_all max_size vs s = Some (Mk (data_ s ++ vs) (offset_ s)).
Proof.
  revert s. induction vs as [| v vs IH]; intros s Hroom.
  - simpl. by rewrite app_nil_r, string_eta.
  - simpl length in Hroom. simpl push_all. unfold push_back.
    case_decide; [| lia].
    rewrite IH; simpl.
    + by rewrite <- app_assoc.
    + unfold data_size in *; simpl. rewrite length_app; simpl. lia.
Qed.

Lemma push_all_fresh vs :
  Z.of_nat (length vs) <= max_size ->
  push_all max_size vs (make []) = Some (Mk vs 0).
Proof.
  intros Hvs. rewrite string_push_all_spec by (unfold data_size; simpl; lia).
  reflexivity.
Qed.

(** What is seen of an adapter whose cursor is at the start. *)
Lemma whole_size vs :
  Z.of_nat (length vs) <= max_size ->
  size (Mk vs 0) = Z.of_nat (length vs).
Proof.
  intros Hvs. unfold size, data_size; simpl.
  rewrite SizeT_facts.sub_small by lia. lia.
Qed.

Lemma whole_view vs :
  Z.of_nat (length vs) <= max_size -> view (Mk vs 0) = vs.
Proof.
  intros Hvs. unfold view. rewrite whole_size by done.
  unfold data; simpl. rewrite drop_0, Nat2Z.id. by apply take_ge.
Qed.

Lemma whole_front vs : front (Mk vs 0) = head vs.
Proof. unfold front; simpl. by destruct vs. Qed.

End Facts.

End Fifo_string_facts.

(** ** Properties of the two adapters *)

(** Closes a side condition on concrete [size_type] values. *)
Ltac size_t_lia :=
  unfold SizeT.in_range, SizeT.max in *;
  rewrite ?SizeT_facts.modulus_value in *;
  simpl; lia.

Lemma array_empty_cursors {T : Type} (a : Fifo_array.t T) :
  SizeT.in_range (Fifo_array.pop_offset_ a) ->
  SizeT.in_range (Fifo_array.push_offset_ a) ->
  Fifo_array.empty a = true ->
  Fifo_array.pop_offset_ a = Fifo_array.push_offset_ a.
Proof.
  intros Hpop Hpush He. unfold Fifo_array.empty in He.
  apply bool_decide_eq_true in He. symmetry.
  by apply SizeT_facts.sub_eq_0.
Qed.

(** C1. In the fixed adapter [pop_front] sets the pop offset to
    [min (pop_offset + 1) N], with [N] the capacity and not the push
    offset: the call is defined on every state, and on an empty adapter
    with a free slot it leaves the pop offset above the push offset. In
    the growable adapter [pop_front] sets the offset to
    [min (offset + 1) (length storage)]. The cursors are [size_type]
    values below [SIZE_MAX], as they are in every state that calls
    produce ([Fifo_array_facts.bounded_produced],
    [Fifo_string_facts.good_reachable]). *)
Theorem pop_front_clamps_to_buffer_size
    (T : Type) (N : Z) (a : Fifo_array.t T)
    (CharT : Type) (g : Fifo_string.t CharT) :
  0 <= Fifo_array.pop_offset_ a < SizeT.max ->
  SizeT.in_range (Fifo_array.push_offset_ a) ->
  0 <= Fifo_string.offset_ g < SizeT.max ->
  (Fifo_array.run N Fifo_array.Pop_front a = Some (Fifo_array.pop_front N a)
   /\ Fifo_array.pop_offset_ (Fifo_array.pop_front N a)
      = Z.min (Fifo_array.pop_offset_ a + 1) N
   /\ (Fifo_array.empty a = true ->
       Fifo_array.push_offset_ a < N ->
       Fifo_array.push_offset_ (Fifo_array.pop_front N a)
       < Fifo_array.pop_offset_ (Fifo_array.pop_front N a)))
  /\ Fifo_string.offset_ (Fifo_string.pop_front g)
     = Z.min (Fifo_string.offset_ g + 1) (Fifo_string.data_size g).
Proof.
  intros Hpop Hpush Hoff. split; [split; [| split] |].
  - reflexivity.
  - by apply Fifo_array_facts.array_pop_front_offset.
  - intros He Hfree.
    rewrite Fifo_array_facts.array_pop_front_offset by done.
    assert (Heq : Fifo_array.pop_offset_ a = Fifo_array.push_offset_ a).
    { apply array_empty_cursors; [| done | done].
      unfold SizeT.in_range. lia. }
    simpl. lia.
  - by apply Fifo_string_facts.string_pop_front_offset.
Qed.

(** A new fixed adapter of capacity 4 and a growable adapter holding
    one character. *)
Lemma pop_front_clamps_to_buffer_size_witness :
  let a := Fifo_array.make [7; 7; 7; 7] in
  let g := Fifo_string.make ["x"%char] in
  0 <= Fifo_array.pop_offset_ a < SizeT.max
  /\ SizeT.in_range (Fifo_array.push_offset_ a)
  /\ 0 <= Fifo_string.offset_ g < SizeT.max
  /\ Fifo_array.empty a = true
  /\ Fifo_array.pop_offset_ (Fifo_array.pop_front 4 a) = 1
  /\ Fifo_array.push_offset_ (Fifo_array.pop_front 4 a)
     < Fifo_array.pop_offset_ (Fifo_array.pop_front 4 a)
  /\ Fifo_string.offset_ (Fifo_string.pop_front g) = 1.
Proof.
  intros a g.
  assert (Hpop : 0 <= Fifo_array.pop_offset_ a < SizeT.max) by size_t_lia.
  assert (Hpush : SizeT.in_range (Fifo_array.push_offset_ a)) by size_t_lia.
  assert (Hoff : 0 <= Fifo_string.offset_ g < SizeT.max) by size_t_lia.
  destruct (pop_front_clamps_to_buffer_size Z 4 a ascii g Hpop Hpush Hoff)
    as ((_ & Hmin & Hover) & Hg).
  assert (He : Fifo_array.empty a = true) by reflexivity.
  split; [exact Hpop |]. split; [exact Hpush |]. split; [exact Hoff |].
  split; [exact He |]. split; [exact Hmin |].
  split; [apply Hover; [exact He | simpl; lia] | exact Hg].
Defined.

(** C2, as stated, fails: [0 <= pop_offset <= push_offset <= N] holds in
    a new adapter of capacity 4 and no longer holds after [pop_front]. *)
Lemma consistent_not_preserved_by_pop_front :
  Fifo_array.consistent 4 (Fifo_array.make [0; 0; 0; 0])
  /\ ~ Fifo_array.consistent 4
         (Fifo_array.pop_front 4 (Fifo_array.make [0; 0; 0; 0])).
Proof.
  split.
  - unfold Fifo_array.consistent; simpl. lia.
  - intros (_ & Hcur & _). vm_compute in Hcur.
    destruct Hcur as [_ Hle]. apply Hle. reflexivity.
Qed.

(** C2, amended. In the fixed adapter [0 <= pop_offset <= push_offset <= N]
    holds in the initial state and is preserved by [push_back] when a
    slot is free, by [pop_front] exactly when the adapter holds a live
    element or its push offset is [N], and by [unpop_front],
    [unpop_all], [clear] and [swap]; so it holds in every state reached
    by calls of [push_back] with a free slot, of [pop_front] with a live
    element, and of the other operations. *)
Theorem consistent_invariant (T : Type) (N : Z) :
  0 <= N < SizeT.max ->
  (forall d : list T,
      Z.of_nat (length d) = N -> Fifo_array.consistent N (Fifo_array.make d))
  /\ (forall s : Fifo_array.t T,
        Fifo_array.consistent N s ->
        (forall v : T,
            Fifo_array.push_offset_ s < N ->
            exists s', Fifo_array.push_back N v s = Some s'
                       /\ Fifo_array.consistent N s')
        /\ (Fifo_array.consistent N (Fifo_array.pop_front N s)
            <-> Fifo_array.pop_offset_ s < Fifo_array.push_offset_ s
                \/ Fifo_array.push_offset_ s = N)
        /\ Fifo_array.consistent N (Fifo_array.unpop_front s)
        /\ Fifo_array.consistent N (Fifo_array.unpop_all s)
        /\ Fifo_array.consistent N (Fifo_array.clear s))
  /\ (forall a b : Fifo_array.t T,
        Fifo_array.consistent N a -> Fifo_array.consistent N b ->
        Fifo_array.consistent N (fst (Fifo_array.swap a b))
        /\ Fifo_array.consistent N (snd (Fifo_array.swap a b)))
  /\ (forall s : Fifo_array.t T,
        Fifo_array.reachable N s -> Fifo_array.consistent N s).
Proof.
  intros HN. split; [| split; [| split]].
  - intros d Hd. by apply Fifo_array_facts.consistent_make.
  - intros s Hs. split; [| split; [| split; [| split]]].
    + intros v Hfree. by apply Fifo_array_facts.consistent_push_back.
    + by apply Fifo_array_facts.consistent_pop_front_iff.
    + by apply Fifo_array_facts.consistent_unpop_front.
    + by apply Fifo_array_facts.consistent_unpop_all.
    + by apply Fifo_array_facts.consistent_clear.
  - intros a b Ha Hb. by apply Fifo_array_facts.consistent_swap.
  - intros s Hs. by apply (Fifo_array_facts.consistent_reachable N).
Qed.

(** A fixed adapter of capacity 4 after three pushes. *)
Lemma consistent_invariant_witness :
  let s := Fifo_array.Mk [1; 2; 3; 0] 0 3 in
  0 <= 4 < SizeT.max
  /\ Fifo_array.consistent 4 s
  /\ Fifo_array.consistent 4 (Fifo_array.pop_front 4 s)
  /\ Fifo_array.consistent 4 (Fifo_array.unpop_front (Fifo_array.pop_front 4 s)).
Proof.
  intros s.
  assert (HN : 0 <= 4 < SizeT.max) by size_t_lia.
  assert (Hs : Fifo_array.consistent 4 s).
  { unfold Fifo_array.consistent; simpl. lia. }
  destruct (consistent_invariant Z 4 HN) as (_ & Hstep & _ & _).
  destruct (Hstep s Hs) as (_ & Hpop & _).
  assert (Hp : Fifo_array.consistent 4 (Fifo_array.pop_front 4 s)).
  { apply Hpop. left. simpl. lia. }
  destruct (Hstep _ Hp) as (_ & _ & Hunpop & _).
  split; [exact HN |]. split; [exact Hs |]. split; [exact Hp | exact Hunpop].
Defined.

(** C3, as stated, fails: after the three pushes and the two pops the
    adapter holds one element, so [size()] is not 2. *)
Lemma scenario_size_after_two_pops :
  ~ (Fifo_string.view <$> Scenario.pushed 1024 = Some ["a"; "b"; "c"]%char
     /\ Fifo_string.view <$> Scenario.popped 1024 = Some ["c"]%char
     /\ Fifo_string.size <$> Scenario.popped 1024 = Some 2
     /\ Fifo_string.view <$> Scenario.unpopped 1024 = Some ["a"; "b"; "c"]%char
     /\ Fifo_string.size <$> Scenario.unpopped 1024 = Some 3
     /\ Fifo_string.size <$> Scenario.cleared 1024 = Some 0
     /\ Fifo_string.view <$> Scenario.cleared 1024 = Some []).
Proof.
  intros (_ & _ & Hsize & _). vm_compute in Hsize. discriminate Hsize.
Qed.

(** C3, amended. Growable adapter over [char], starting empty: after
    [push_back] of 'a', 'b', 'c' [view()] is "abc"; after two calls of
    [pop_front] [view()] is "c" and [size()] is 1; after [unpop_all]
    [view()] is "abc" and [size()] is 3; after [clear] [size()] is 0 and
    [view()] is empty. *)
Theorem growable_scenario (max_size : Z) :
  3 <= max_size ->
  Fifo_string.view <$> Scenario.pushed max_size = Some ["a"; "b"; "c"]%char
  /\ Fifo_string.view <$> Scenario.popped max_size = Some ["c"]%char
  /\ Fifo_string.size <$> Scenario.popped max_size = Some 1
  /\ Fifo_string.view <$> Scenario.unpopped max_size = Some ["a"; "b"; "c"]%char
  /\ Fifo_string.size <$> Scenario.unpopped max_size = Some 3
  /\ Fifo_string.size <$> Scenario.cleared max_size = Some 0
  /\ Fifo_string.view <$> Scenario.cleared max_size = Some [].
Proof.
  intros Hmax.
  unfold Scenario.cleared, Scenario.unpopped, Scenario.popped, Scenario.pushed,
    Scenario.fresh.
  rewrite Fifo_string_facts.push_all_fresh by (simpl; lia).
  repeat split; vm_compute; reflexivity.
Qed.

(** The scenario with [max_size()] 1024. *)
Lemma growable_scenario_witness :
  3 <= 1024
  /\ Fifo_string.view <$> Scenario.popped 1024 = Some ["c"]%char
  /\ Fifo_string.size <$> Scenario.popped 1024 = Some 1.
Proof.
  assert (Hmax : 3 <= 1024) by lia.
  destruct (growable_scenario 1024 Hmax) as (_ & Hview & Hsize & _).
  split; [exact Hmax |]. split; [exact Hview | exact Hsize].
Defined.

(** C4. In a state of either adapter in which a pop is valid (the
    cursors are inside the buffer, as in every state that calls
    produce, and the pop cursor is below the live end), the adapter is
    not empty and [pop_front] followed by [unpop_front] gives back the
    same state, so [size()] and [front()] are what they were before the
    pop. *)
Theorem pop_front_unpop_front_round_trip
    (T : Type) (N : Z) (a : Fifo_array.t T)
    (CharT : Type) (max_size : Z) (g : Fifo_string.t CharT) :
  0 <= N < SizeT.max ->
  Fifo_array.bounded N a ->
  Fifo_array.pop_offset_ a < Fifo_array.push_offset_ a ->
  0 <= max_size < SizeT.max ->
  Fifo_string.typed max_size g ->
  Fifo_string.offset_ g < Fifo_string.data_size g ->
  (Fifo_array.empty a = false
   /\ Fifo_array.unpop_front (Fifo_array.pop_front N a) = a
   /\ Fifo_array.size (Fifo_array.unpop_front (Fifo_array.pop_front N a))
      = Fifo_array.size a
   /\ exists x : T,
        Fifo_array.front a = Some x
        /\ Fifo_array.front (Fifo_array.unpop_front (Fifo_array.pop_front N a))
           = Some x)
  /\ (Fifo_string.empty g = false
      /\ Fifo_string.unpop_front (Fifo_string.pop_front g) = g
      /\ Fifo_string.size (Fifo_string.unpop_front (Fifo_string.pop_front g))
         = Fifo_string.size g
      /\ exists c : CharT,
           Fifo_string.front g = Some c
           /\ Fifo_string.front
                (Fifo_string.unpop_front (Fifo_string.pop_front g))
              = Some c).
Proof.
  intros HN (Hlen & Hpop & Hpush) Hlive HM (Hd & Ho) Hglive.
  unfold SizeT.in_range in Ho.
  assert (Ha : Fifo_array.unpop_front (Fifo_array.pop_front N a) = a)
    by (apply (Fifo_array_facts.array_unpop_pop N HN); lia).
  assert (Hg : Fifo_string.unpop_front (Fifo_string.pop_front g) = g)
    by (apply Fifo_string_facts.string_unpop_pop; lia).
  rewrite Ha, Hg. split; [split; [| split; [| split]] | split; [| split; [| split]]];
    try reflexivity.
  - unfold Fifo_array.empty, Fifo_array.size.
    rewrite SizeT_facts.sub_small by lia.
    apply bool_decide_eq_false. lia.
  - unfold Fifo_array.front. rewrite deref_nonneg by lia.
    destruct (lookup_lt_is_Some_2 (Fifo_array.data_ a)
                (Z.to_nat (Fifo_array.pop_offset_ a))) as [x Hx]; [lia |].
    exists x. by rewrite Hx.
  - unfold Fifo_string.empty, Fifo_string.size.
    rewrite SizeT_facts.sub_small by lia.
    apply bool_decide_eq_false. lia.
  - unfold Fifo_string.front. rewrite deref_nonneg by lia.
    unfold Fifo_string.data_size in *.
    destruct (lookup_lt_is_Some_2 (Fifo_string.data_ g)
                (Z.to_nat (Fifo_string.offset_ g))) as [c Hc]; [lia |].
    exists c. by rewrite Hc.
Qed.

(** A fixed adapter with two live elements and a growable adapter with
    one. *)
Lemma pop_front_unpop_front_round_trip_witness :
  let a := Fifo_array.Mk [1; 2; 3; 0] 1 3 in
  let g := Fifo_string.Mk ["a"; "b"; "c"]%char 2 in
  (0 <= 4 < SizeT.max
   /\ Fifo_array.bounded 4 a
   /\ Fifo_array.pop_offset_ a < Fifo_array.push_offset_ a
   /\ 0 <= 1024 < SizeT.max
   /\ Fifo_string.typed 1024 g
   /\ Fifo_string.offset_ g < Fifo_string.data_size g)
  /\ Fifo_array.unpop_front (Fifo_array.pop_front 4 a) = a
  /\ Fifo_string.unpop_front (Fifo_string.pop_front g) = g.
Proof.
  intros a g.
  assert (HN : 0 <= 4 < SizeT.max) by size_t_lia.
  assert (Hb : Fifo_array.bounded 4 a)
    by (unfold Fifo_array.bounded; simpl; lia).
  assert (Hlive : Fifo_array.pop_offset_ a < Fifo_array.push_offset_ a)
    by (simpl; lia).
  assert (HM : 0 <= 1024 < SizeT.max) by size_t_lia.
  assert (Ht : Fifo_string.typed 1024 g)
    by (unfold Fifo_string.typed, Fifo_string.data_size; size_t_lia).
  assert (Hglive : Fifo_string.offset_ g < Fifo_string.data_size g)
    by (unfold Fifo_string.data_size; simpl; lia).
  destruct (pop_front_unpop_front_round_trip Z 4 a ascii 1024 g
              HN Hb Hlive HM Ht Hglive) as ((_ & Ha & _) & (_ & Hg & _)).
  split; [| split; [exact Ha | exact Hg]].
  split; [exact HN |]. split; [exact Hb |]. split; [exact Hlive |].
  split; [exact HM |]. split; [exact Ht | exact Hglive].
Defined.

(** C5. Take either adapter just constructed or just cleared (the fixed
    one is then [make d] for the contents [d] of its array, since
    [clear s = make (data_ s)]; the growable one is [make []]), call
    [push_back] [p] times, within the capacity for the fixed adapter,
    and then [pop_front] any number of times. After [unpop_all],
    [size()] is [p] and the live elements are the pushed values, in
    the order of the pushes. *)
Theorem unpop_all_restores_pushes
    (T : Type) (N : Z) (d vs : list T) (n : nat)
    (CharT : Type) (max_size : Z) (ws : list CharT) (m : nat) :
  0 <= N < SizeT.max ->
  Z.of_nat (length d) = N ->
  Z.of_nat (length vs) <= N ->
  0 <= max_size < SizeT.max ->
  Z.of_nat (length ws) <= max_size ->
  (exists s : Fifo_array.t T,
      Fifo_array.push_all N vs (Fifo_array.make d) = Some s
      /\ Fifo_array.size (Fifo_array.unpop_all (Fifo_array.pop_n N n s))
         = Z.of_nat (length vs)
      /\ Fifo_array.elements (Fifo_array.unpop_all (Fifo_array.pop_n N n s))
         = vs)
  /\ (exists g : Fifo_string.t CharT,
        Fifo_string.push_all max_size ws (Fifo_string.make []) = Some g
        /\ Fifo_string.size (Fifo_string.unpop_all (Fifo_string.pop_n m g))
           = Z.of_nat (length ws)
        /\ Fifo_string.view (Fifo_string.unpop_all (Fifo_string.pop_n m g))
           = ws).
Proof.
  intros HN Hd Hvs HM Hws. split.
  - eexists. split; [by apply Fifo_array_facts.push_all_make |].
    unfold Fifo_array.unpop_all.
    destruct (Fifo_array_facts.pop_n_frame N n
                (Fifo_array.Mk (vs ++ drop (length vs) d) 0
                               (Z.of_nat (length vs)))) as [-> ->].
    simpl. split.
    + by apply (Fifo_array_facts.prefix_size N).
    + by apply (Fifo_array_facts.prefix_elements N).
  - eexists. split; [by apply Fifo_string_facts.push_all_fresh |].
    unfold Fifo_string.unpop_all. rewrite Fifo_string_facts.pop_n_data.
    simpl. split.
    + by apply (Fifo_string_facts.whole_size max_size).
    + by apply (Fifo_string_facts.whole_view max_size).
Qed.

(** Three pushes and five pops on a fixed adapter of capacity 4; two
    pushes and one pop on a growable adapter. *)
Lemma unpop_all_restores_pushes_witness :
  (0 <= 4 < SizeT.max
   /\ Z.of_nat (length [0; 0; 0; 0]) = 4
   /\ Z.of_nat (length [1; 2; 3]) <= 4
   /\ 0 <= 1024 < SizeT.max
   /\ Z.of_nat (length ["a"; "b"]%char) <= 1024)
  /\ (exists s : Fifo_array.t Z,
        Fifo_array.push_all 4 [1; 2; 3] (Fifo_array.make [0; 0; 0; 0]) = Some s
        /\ Fifo_array.size (Fifo_array.unpop_all (Fifo_array.pop_n 4 5 s)) = 3
        /\ Fifo_array.elements (Fifo_array.unpop_all (Fifo_array.pop_n 4 5 s))
           = [1; 2; 3])
  /\ (exists g : Fifo_string.t ascii,
        Fifo_string.push_all 1024 ["a"; "b"]%char (Fifo_string.make [])
        = Some g
        /\ Fifo_string.size (Fifo_string.unpop_all (Fifo_string.pop_n 1 g)) = 2
        /\ Fifo_string.view (Fifo_string.unpop_all (Fifo_string.pop_n 1 g))
           = ["a"; "b"]%char).
Proof.
  assert (HN : 0 <= 4 < SizeT.max) by size_t_lia.
  assert (Hd : Z.of_nat (length [0; 0; 0; 0]) = 4) by reflexivity.
  assert (Hvs : Z.of_nat (length [1; 2; 3]) <= 4) by (simpl; lia).
  assert (HM : 0 <= 1024 < SizeT.max) by size_t_lia.
  assert (Hws : Z.of_nat (length ["a"; "b"]%char) <= 1024) by (simpl; lia).
  split.
  - split; [exact HN |]. split; [exact Hd |]. split; [exact Hvs |].
    split; [exact HM | exact Hws].
  - exact (unpop_all_restores_pushes Z 4 [0; 0; 0; 0] [1; 2; 3] 5%nat
             ascii 1024 ["a"; "b"]%char 1%nat HN Hd Hvs HM Hws).
Defined.

(** C6. After [k >= 1] calls of [push_back] with the values [v1 .. vk] on
    an empty adapter ([k <= N] for the fixed one) and no pop, [front()]
    is [v1], [back()] is [vk] and [size()] is [k]. *)
Theorem front_back_size_after_pushes
    (T : Type) (N : Z) (d vs : list T) (v1 vk : T)
    (CharT : Type) (max_size : Z) (ws : list CharT) (w1 wk : CharT) :
  0 <= N < SizeT.max ->
  Z.of_nat (length d) = N ->
  Z.of_nat (length vs) <= N ->
  head vs = Some v1 ->
  list.last vs = Some vk ->
  0 <= max_size < SizeT.max ->
  Z.of_nat (length ws) <= max_size ->
  head ws = Some w1 ->
  list.last ws = Some wk ->
  (exists s : Fifo_array.t T,
      Fifo_array.push_all N vs (Fifo_array.make d) = Some s
      /\ Fifo_array.front s = Some v1
      /\ Fifo_array.back s = Some vk
      /\ Fifo_array.size s = Z.of_nat (length vs))
  /\ (exists g : Fifo_string.t CharT,
        Fifo_string.push_all max_size ws (Fifo_string.make []) = Some g
        /\ Fifo_string.front g = Some w1
        /\ Fifo_string.back g = Some wk
        /\ Fifo_string.size g = Z.of_nat (length ws)).
Proof.
  intros HN Hd Hvs Hv1 Hvk HM Hws Hw1 Hwk. split.
  - assert (Hne : vs <> []) by (intros ->; discriminate Hv1).
    eexists. split; [by apply Fifo_array_facts.push_all_make |].
    rewrite Fifo_array_facts.prefix_front, Fifo_array_facts.prefix_back by done.
    split; [done |]. split; [done |].
    by apply (Fifo_array_facts.prefix_size N).
  - eexists. split; [by apply Fifo_string_facts.push_all_fresh |].
    rewrite Fifo_string_facts.whole_front.
    split; [done |]. split; [exact Hwk |].
    by apply (Fifo_string_facts.whole_size max_size).
Qed.

(** Three pushes on a fixed adapter of capacity 4 and two on a growable
    adapter. *)
Lemma front_back_size_after_pushes_witness :
  (0 <= 4 < SizeT.max
   /\ Z.of_nat (length [0; 0; 0; 0]) = 4
   /\ Z.of_nat (length [1; 2; 3]) <= 4
   /\ head [1; 2; 3] = Some 1
   /\ list.last [1; 2; 3] = Some 3
   /\ 0 <= 1024 < SizeT.max
   /\ Z.of_nat (length ["a"; "b"]%char) <= 1024
   /\ head ["a"; "b"]%char = Some "a"%char
   /\ list.last ["a"; "b"]%char = Some "b"%char)
  /\ (exists s : Fifo_array.t Z,
        Fifo_array.push_all 4 [1; 2; 3] (Fifo_array.make [0; 0; 0; 0]) = Some s
        /\ Fifo_array.front s = Some 1
        /\ Fifo_array.back s = Some 3
        /\ Fifo_array.size s = 3)
  /\ (exists g : Fifo_string.t ascii,
        Fifo_string.push_all 1024 ["a"; "b"]%char (Fifo_string.make [])
        = Some g
        /\ Fifo_string.front g = Some "a"%char
        /\ Fifo_string.back g = Some "b"%char
        /\ Fifo_string.size g = 2).
Proof.
  assert (HN : 0 <= 4 < SizeT.max) by size_t_lia.
  assert (Hd : Z.of_nat (length [0; 0; 0; 0]) = 4) by reflexivity.
  assert (Hvs : Z.of_nat (length [1; 2; 3]) <= 4) by (simpl; lia).
  assert (Hv1 : head [1; 2; 3] = Some 1) by reflexivity.
  assert (Hvk : list.last [1; 2; 3] = Some 3) by reflexivity.
  assert (HM : 0 <= 1024 < SizeT.max) by size_t_lia.
  assert (Hws : Z.of_nat (length ["a"; "b"]%char) <= 1024) by (simpl; lia).
  assert (Hw1 : head ["a"; "b"]%char = Some "a"%char) by reflexivity.
  assert (Hwk : list.last ["a"; "b"]%char = Some "b"%char) by reflexivity.
  split.
  - split; [exact HN |]. split; [exact Hd |]. split; [exact Hvs |].
    split; [exact Hv1 |]. split; [exact Hvk |]. split; [exact HM |].
    split; [exact Hws |]. split; [exact Hw1 | exact Hwk].
  - exact (front_back_size_after_pushes Z 4 [0; 0; 0; 0] [1; 2; 3] 1 3
             ascii 1024 ["a"; "b"]%char "a"%char "b"%char
             HN Hd Hvs Hv1 Hvk HM Hws Hw1 Hwk).
Defined.

(** C7. [swap] on two adapters of the same type exchanges their whole
    states, storage and cursors: afterwards the first has the
    [front()], [back()], [size()] and element sequence that the second
    had and the other way round, and a second [swap] restores both. *)
Theorem swap_exchanges_states
    (T : Type) (a b : Fifo_array.t T)
    (CharT : Type) (g h : Fifo_string.t CharT) :
  (Fifo_array.swap a b = (b, a)
   /\ (Fifo_array.front (fst (Fifo_array.swap a b)) = Fifo_array.front b
       /\ Fifo_array.back (fst (Fifo_array.swap a b)) = Fifo_array.back b
       /\ Fifo_array.size (fst (Fifo_array.swap a b)) = Fifo_array.size b
       /\ Fifo_array.elements (fst (Fifo_array.swap a b))
          = Fifo_array.elements b)
   /\ (Fifo_array.front (snd (Fifo_array.swap a b)) = Fifo_array.front a
       /\ Fifo_array.back (snd (Fifo_array.swap a b)) = Fifo_array.back a
       /\ Fifo_array.size (snd (Fifo_array.swap a b)) = Fifo_array.size a
       /\ Fifo_array.elements (snd (Fifo_array.swap a b))
          = Fifo_array.elements a)
   /\ Fifo_array.swap (fst (Fifo_array.swap a b)) (snd (Fifo_array.swap a b))
      = (a, b))
  /\ (Fifo_string.swap g h = (h, g)
      /\ (Fifo_string.front (fst (Fifo_string.swap g h)) = Fifo_string.front h
          /\ Fifo_string.back (fst (Fifo_string.swap g h)) = Fifo_string.back h
          /\ Fifo_string.size (fst (Fifo_string.swap g h)) = Fifo_string.size h
          /\ Fifo_string.view (fst (Fifo_string.swap g h)) = Fifo_string.view h)
      /\ (Fifo_string.front (snd (Fifo_string.swap g h)) = Fifo_string.front g
          /\ Fifo_string.back (snd (Fifo_string.swap g h)) = Fifo_string.back g
          /\ Fifo_string.size (snd (Fifo_string.swap g h)) = Fifo_string.size g
          /\ Fifo_string.view (snd (Fifo_string.swap g h)) = Fifo_string.view g)
      /\ Fifo_string.swap (fst (Fifo_string.swap g h))
           (snd (Fifo_string.swap g h))
         = (g, h)).
Proof.
  rewrite !Fifo_array_facts.array_swap_pair, !Fifo_string_facts.string_swap_pair. simpl.
  tauto.
Qed.

(** C8. In the fixed adapter [clear()] sets both offsets to zero and
    leaves the array as it is, element by element; afterwards [size()]
    is 0 and [empty()] is true. *)
Theorem clear_resets_cursors_only (T : Type) (s : Fifo_array.t T) :
  Fifo_array.pop_offset_ (Fifo_array.clear s) = 0
  /\ Fifo_array.push_offset_ (Fifo_array.clear s) = 0
  /\ Fifo_array.data_ (Fifo_array.clear s) = Fifo_array.data_ s
  /\ (forall i : nat,
        Fifo_array.data_ (Fifo_array.clear s) !! i = Fifo_array.data_ s !! i)
  /\ Fifo_array.size (Fifo_array.clear s) = 0
  /\ Fifo_array.empty (Fifo_array.clear s) = true.
Proof.
  assert (Hsize : Fifo_array.size (Fifo_array.clear s) = 0)
    by apply SizeT_facts.sub_diag.
  split; [reflexivity |]. split; [reflexivity |]. split; [reflexivity |].
  split; [intros i; reflexivity |]. split; [exact Hsize |].
  unfold Fifo_array.empty. apply bool_decide_eq_true. exact Hsize.
Qed.

(** C9. In the growable adapter [offset <= length storage] holds after
    construction, where the offset is zero, and is preserved by
    [push_back], [pop_front], [unpop_front], [unpop_all], [clear] and
    [swap], so it holds in every state that calls produce; under it
    [size()] is [length storage - offset] without wrap-around, and
    [pop_front] on an empty adapter returns the very same state. *)
Theorem offset_within_storage (CharT : Type) (max_size : Z) :
  0 <= max_size < SizeT.max ->
  (forall d : list CharT,
      Z.of_nat (length d) <= max_size ->
      Fifo_string.offset_ (Fifo_string.make d) = 0
      /\ Fifo_string.typed max_size (Fifo_string.make d)
      /\ Fifo_string.inv (Fifo_string.make d))
  /\ (forall (o : Fifo_string.op CharT) (s s' : Fifo_string.t CharT),
        Fifo_string.typed max_size s -> Fifo_string.inv s ->
        Fifo_string.run max_size o s = Some s' ->
        Fifo_string.typed max_size s' /\ Fifo_string.inv s')
  /\ (forall a b : Fifo_string.t CharT,
        Fifo_string.typed max_size a /\ Fifo_string.inv a ->
        Fifo_string.typed max_size b /\ Fifo_string.inv b ->
        (Fifo_string.typed max_size (fst (Fifo_string.swap a b))
         /\ Fifo_string.inv (fst (Fifo_string.swap a b)))
        /\ (Fifo_string.typed max_size (snd (Fifo_string.swap a b))
            /\ Fifo_string.inv (snd (Fifo_string.swap a b))))
  /\ (forall s : Fifo_string.t CharT,
        Fifo_string.reachable max_size s ->
        Fifo_string.typed max_size s /\ Fifo_string.inv s)
  /\ (forall s : Fifo_string.t CharT,
        Fifo_string.typed max_size s -> Fifo_string.inv s ->
        Fifo_string.size s = Fifo_string.data_size s - Fifo_string.offset_ s
        /\ 0 <= Fifo_string.size s <= Fifo_string.data_size s
        /\ (Fifo_string.empty s = true -> Fifo_string.pop_front s = s)).
Proof.
  intros HM. split; [| split; [| split; [| split]]].
  - intros d Hd. split; [reflexivity |].
    by apply Fifo_string_facts.good_make.
  - intros o s s'. by apply Fifo_string_facts.good_run.
  - intros a b. by apply Fifo_string_facts.good_swap.
  - intros s. by apply Fifo_string_facts.good_reachable.
  - intros s Ht Hi.
    pose proof (Fifo_string_facts.size_exact max_size HM s Ht Hi) as Hsize.
    split; [exact Hsize |]. split.
    + destruct Ht as (Hd & Ho). unfold SizeT.in_range, Fifo_string.inv in *.
      lia.
    + intros He. apply Fifo_string_facts.pop_front_at_end.
      * destruct Ht as (Hd & _). lia.
      * by apply (Fifo_string_facts.empty_at_end max_size).
Qed.

(** A growable adapter whose two characters have both been popped. *)
Lemma offset_within_storage_witness :
  let s := Fifo_string.Mk ["a"; "b"]%char 2 in
  0 <= 1024 < SizeT.max
  /\ Fifo_string.typed 1024 s
  /\ Fifo_string.inv s
  /\ Fifo_string.empty s = true
  /\ Fifo_string.size s = 0
  /\ Fifo_string.pop_front s = s.
Proof.
  intros s.
  assert (HM : 0 <= 1024 < SizeT.max) by size_t_lia.
  assert (Ht : Fifo_string.typed 1024 s)
    by (unfold Fifo_string.typed, Fifo_string.data_size; size_t_lia).
  assert (Hi : Fifo_string.inv s)
    by (unfold Fifo_string.inv, Fifo_string.data_size; simpl; lia).
  assert (He : Fifo_string.empty s = true) by reflexivity.
  destruct (offset_within_storage ascii 1024 HM) as (_ & _ & _ & _ & Hobs).
  destruct (Hobs s Ht Hi) as (Hsize & _ & Hpop).
  split; [exact HM |]. split; [exact Ht |]. split; [exact Hi |].
  split; [exact He |]. split; [exact Hsize | exact (Hpop He)].
Defined.

(** C10. In the fixed adapter each of [pop_front], [unpop_front] and
    [unpop_all] leaves the push offset and the array as they are. *)
Theorem pops_change_only_pop_offset (T : Type) (N : Z) (s : Fifo_array.t T) :
  (Fifo_array.push_offset_ (Fifo_array.pop_front N s)
   = Fifo_array.push_offset_ s
   /\ Fifo_array.data_ (Fifo_array.pop_front N s) = Fifo_array.data_ s)
  /\ (Fifo_array.push_offset_ (Fifo_array.unpop_front s)
      = Fifo_array.push_offset_ s
      /\ Fifo_array.data_ (Fifo_array.unpop_front s) = Fifo_array.data_ s)
  /\ (Fifo_array.push_offset_ (Fifo_array.unpop_all s)
      = Fifo_array.push_offset_ s
      /\ Fifo_array.data_ (Fifo_array.unpop_all s) = Fifo_array.data_ s).
Proof.
  split; [split; reflexivity |]. split; [| split; reflexivity].
  unfold Fifo_array.unpop_front. case_decide; split; reflexivity.
Qed.

(** ** Queue order and cursor arithmetic of the fixed adapter *)

Module Fifo_array_order.

Import Fifo_array.

Section Facts.

Context {T : Type}.

Variable N : Z.

Hypothesis N_fits : 0 <= N < SizeT.max.

Implicit Types (s a b : t T) (d vs : list T) (v : T) (o : op T).

(** A borrow in the subtraction of two [size_type] values shows as a
    value near the top of the range. *)
Lemma size_t_sub_borrow (x y : Z) :
  SizeT.in_range x -> SizeT.in_range y -> x < y ->
  SizeT.sub x y = SizeT.modulus - (y - x).
Proof.
  unfold SizeT.in_range, SizeT.sub, SizeT.wrap, SizeT.max.
  rewrite SizeT_facts.modulus_value. intros Hx Hy Hlt.
  symmetry. apply (Z.mod_unique _ _ (-1)); lia.
Qed.

Lemma array_size_consistent s :
  consistent N s -> size s = push_offset_ s - pop_offset_ s.
Proof.
  intros (Hlen & Hpop & Hpush). unfold size.
  apply SizeT_facts.sub_small. lia.
Qed.

Lemma array_elements_consistent s :
  consistent N s ->
  elements s =
    take (Z.to_nat (push_offset_ s) - Z.to_nat (pop_offset_ s))
         (drop (Z.to_nat (pop_offset_ s)) (data_ s)).
Proof.
  intros Hc. unfold elements, data. rewrite array_size_consistent by done.
  destruct Hc as (Hlen & Hpop & Hpush). f_equal. lia.
Qed.

Lemma array_size_overrun s :
  bounded N s -> push_offset_ s < pop_offset_ s ->
  size s = SizeT.modulus - (pop_offset_ s - push_offset_ s).
Proof.
  intros (Hlen & Hpop & Hpush) Hover. unfold size.
  apply size_t_sub_borrow; unfold SizeT.in_range; lia.
Qed.

Lemma array_pop_n_saturates n s :
  0 <= pop_offset_ s <= N ->
  pop_n N n s =
    Mk (data_ s) (Z.min (pop_offset_ s + Z.of_nat n) N) (push_offset_ s).
Proof.
  revert s. induction n as [| n IH]; intros s Hp.
  - simpl. rewrite Z.add_0_r, Z.min_l by lia.
    symmetry. apply Fifo_array_facts.array_eta.
  - simpl pop_n. rewrite IH; unfold pop_front; simpl;
      rewrite SizeT_facts.add_small by lia; [| lia].
    f_equal. lia.
Qed.

Lemma array_unpop_n_saturates n s :
  0 <= pop_offset_ s <= SizeT.max ->
  unpop_n n s =
    Mk (data_ s) (Z.max (pop_offset_ s - Z.of_nat n) 0) (push_offset_ s).
Proof.
  revert s. induction n as [| n IH]; intros s Hp.
  - simpl. rewrite Z.sub_0_r, Z.max_l by lia.
    symmetry. apply Fifo_array_facts.array_eta.
  - simpl unpop_n. unfold unpop_front. case_decide as Hz.
    + rewrite IH by lia. f_equal. lia.
    + rewrite IH; simpl; rewrite SizeT_facts.sub_small by lia; [| lia].
      f_equal. lia.
Qed.

Lemma array_pop_unpop s :
  0 < pop_offset_ s <= N -> pop_front N (unpop_front s) = s.
Proof.
  intros Hp. rewrite Fifo_array_facts.array_unpop_front_positive by lia.
  unfold pop_front; simpl. rewrite SizeT_facts.add_small by lia.
  replace (Z.min (pop_offset_ s - 1 + 1) N) with (pop_offset_ s) by lia.
  apply Fifo_array_facts.array_eta.
Qed.

(** *** Queue order *)

Lemma array_push_back_elements v s :
  consistent N s -> push_offset_ s < N ->
  elements (Mk (<[Z.to_nat (push_offset_ s) := v]> (data_ s))
               (pop_offset_ s) (push_offset_ s + 1))
  = elements s ++ [v].
Proof.
  intros Hc Hfree. pose proof Hc as (Hlen & Hpop & Hpush).
  assert (Hc' : consistent N
                  (Mk (<[Z.to_nat (push_offset_ s) := v]> (data_ s))
                      (pop_offset_ s) (push_offset_ s + 1))).
  { unfold consistent; simpl. rewrite length_insert. lia. }
  rewrite (array_elements_consistent _ Hc'), (array_elements_consistent _ Hc).
  simpl.
  set (p := Z.to_nat (pop_offset_ s)). set (q := Z.to_nat (push_offset_ s)).
  assert (Hpq : (p <= q)%nat) by (subst p q; lia).
  assert (Hq : (q < length (data_ s))%nat) by (subst q; lia).
  replace (Z.to_nat (push_offset_ s + 1) - p)%nat with (S (q - p))
    by (subst p q; lia).
  rewrite drop_insert_ge by lia.
  rewrite (take_S_r _ (q - p) v).
  - rewrite take_insert. case_decide; [lia | done].
  - apply list_lookup_insert_eq. rewrite length_drop. lia.
Qed.

Lemma array_pop_front_elements s x :
  consistent N s -> pop_offset_ s < push_offset_ s ->
  data_ s !! Z.to_nat (pop_offset_ s) = Some x ->
  elements s = x :: elements (pop_front N s).
Proof.
  intros Hc Hlive Hx. pose proof Hc as (Hlen & Hpop & Hpush).
  pose proof (Fifo_array_facts.consistent_pop_front N N_fits s Hc Hlive) as Hc'.
  rewrite (array_elements_consistent _ Hc), (array_elements_consistent _ Hc').
  rewrite Fifo_array_facts.array_pop_front_live by lia. simpl.
  set (p := Z.to_nat (pop_offset_ s)) in *.
  set (q := Z.to_nat (push_offset_ s)).
  replace (Z.to_nat (pop_offset_ s + 1)) with (S p) by (subst p; lia).
  replace (q - p)%nat with (S (q - S p)) by (subst p q; lia).
  by rewrite (drop_S _ x p Hx).
Qed.

(** *** Space is not reclaimed *)



End Facts.

End Fifo_array_order.

(** ** Queue order and cursor arithmetic of the growable adapter *)

Module Fifo_string_order.

Import Fifo_string.

Section Facts.

Context {CharT : Type}.

Variable max_size : Z.

Hypothesis max_size_fits : 0 <= max_size < SizeT.max.

Implicit Types (s a b : t CharT) (d vs : list CharT) (v c : CharT).

(** Under the invariant the view runs to the end of the string. *)
Lemma string_view_remaining s :
  typed max_size s -> inv s -> view s = data s.
Proof.
  intros Ht Hi. unfold view.
  rewrite (Fifo_string_facts.size_exact max_size max_size_fits s Ht Hi).
  apply take_ge. unfold data, data_size. rewrite length_drop. lia.
Qed.

Lemma string_pop_n_saturates n s :
  data_size s < SizeT.max -> 0 <= offset_ s <= data_size s ->
  pop_n n s = Mk (data_ s) (Z.min (offset_ s + Z.of_nat n) (data_size s)).
Proof.
  revert s. induction n as [| n IH]; intros s Hd Ho.
  - simpl. rewrite Z.add_0_r, Z.min_l by lia.
    symmetry. apply Fifo_string_facts.string_eta.
  - simpl pop_n.
    assert (Hsame : data_size (pop_front s) = data_size s) by reflexivity.
    assert (Hoff : offset_ (pop_front s)
                   = Z.min (offset_ s + 1) (data_size s))
      by (apply Fifo_string_facts.string_pop_front_offset; lia).
    rewrite IH by (rewrite ?Hsame, ?Hoff; lia).
    rewrite Hsame, Hoff. simpl. f_equal. lia.
Qed.

Lemma string_unpop_n_saturates n s :
  0 <= offset_ s <= SizeT.max ->
  unpop_n n s = Mk (data_ s) (Z.max (offset_ s - Z.of_nat n) 0).
Proof.
  revert s. induction n as [| n IH]; intros s Ho.
  - simpl. rewrite Z.sub_0_r, Z.max_l by lia.
    symmetry. apply Fifo_string_facts.string_eta.
  - simpl unpop_n. unfold unpop_front. case_decide as Hz.
    + rewrite IH by lia. f_equal. lia.
    + rewrite IH; simpl; rewrite SizeT_facts.sub_small by lia; [| lia].
      f_equal. lia.
Qed.

Lemma string_pop_unpop s :
  data_size s <= SizeT.max -> 0 < offset_ s <= data_size s ->
  pop_front (unpop_front s) = s.
Proof.
  intros Hd Ho. rewrite Fifo_string_facts.string_unpop_front_positive by lia.
  unfold pop_front; simpl. rewrite SizeT_facts.add_small by lia.
  change (data_size (Mk (data_ s) (offset_ s - 1))) with (data_size s).
  replace (Z.min (offset_ s - 1 + 1) (data_size s)) with (offset_ s) by lia.
  apply Fifo_string_facts.string_eta.
Qed.

(** *** Queue order *)


Lemma string_pop_front_view s c :
  typed max_size s -> offset_ s < data_size s ->
  data_ s !! Z.to_nat (offset_ s) = Some c ->
  view s = c :: view (pop_front s).
Proof.
  intros Ht Hlive Hc. pose proof Ht as (Hd & Ho).
  unfold SizeT.in_range in Ho.
  assert (Hi : inv s) by (unfold inv; lia).
  assert (Hgood : typed max_size (pop_front s) /\ inv (pop_front s))
    by (by apply (Fifo_string_facts.good_run max_size max_size_fits Pop_front s)).
  destruct Hgood as [Ht' Hi'].
  rewrite (string_view_remaining _ Ht Hi), (string_view_remaining _ Ht' Hi').
  rewrite Fifo_string_facts.string_pop_front_live by lia.
  unfold data; simpl.
  replace (Z.to_nat (offset_ s + 1)) with (S (Z.to_nat (offset_ s))) by lia.
  by apply drop_S.
Qed.

(** *** Space is reclaimed by [clear] only *)



End Facts.

End Fifo_string_order.

(** ** Further properties of the fixed adapter *)

(** X1. In the fixed adapter, when the pop offset is above the push
    offset [size()] is [2^64 - (pop_offset - push_offset)] and
    [empty()] is false; so [pop_front] on an empty adapter that has a
    free slot leaves an adapter whose [size()] is [SIZE_MAX] and which
    no longer reports itself empty. *)
Theorem over_pop_wraps_size (T : Type) (N : Z) (a : Fifo_array.t T) :
  0 <= N < SizeT.max ->
  Fifo_array.bounded N a ->
  (Fifo_array.push_offset_ a < Fifo_array.pop_offset_ a ->
   Fifo_array.size a
   = SizeT.modulus - (Fifo_array.pop_offset_ a - Fifo_array.push_offset_ a)
   /\ Fifo_array.empty a = false)
  /\ (Fifo_array.pop_offset_ a = Fifo_array.push_offset_ a ->
      Fifo_array.push_offset_ a < N ->
      Fifo_array.empty a = true
      /\ Fifo_array.size (Fifo_array.pop_front N a) = SizeT.max
      /\ Fifo_array.empty (Fifo_array.pop_front N a) = false).
Proof.
  intros HN Hb.
  assert (Hover : forall s : Fifo_array.t T,
             Fifo_array.bounded N s ->
             Fifo_array.push_offset_ s < Fifo_array.pop_offset_ s ->
             Fifo_array.size s
             = SizeT.modulus
               - (Fifo_array.pop_offset_ s - Fifo_array.push_offset_ s)
             /\ Fifo_array.empty s = false).
  { intros s Hs Hlt.
    pose proof (Fifo_array_order.array_size_overrun N HN s Hs Hlt) as Hsize.
    split; [exact Hsize |].
    unfold Fifo_array.empty. apply bool_decide_eq_false. rewrite Hsize.
    destruct Hs as (_ & Hpop & Hpush).
    unfold SizeT.max in HN. rewrite SizeT_facts.modulus_value in *. lia. }
  split; [by apply Hover |].
  intros Heq Hfree. pose proof Hb as (Hlen & Hpop & Hpush).
  split.
  - unfold Fifo_array.empty, Fifo_array.size. rewrite Heq.
    apply bool_decide_eq_true. apply SizeT_facts.sub_diag.
  - assert (Hb' : Fifo_array.bounded N (Fifo_array.pop_front N a))
      by (by apply (Fifo_array_facts.bounded_run N HN Fifo_array.Pop_front a)).
    assert (Hp : Fifo_array.pop_offset_ (Fifo_array.pop_front N a)
                 = Fifo_array.push_offset_ a + 1).
    { rewrite Fifo_array_facts.array_pop_front_offset by lia. lia. }
    destruct (Hover _ Hb') as [Hsize Hempty]; [simpl; simpl in Hp; lia |].
    split; [| exact Hempty].
    rewrite Hsize, Hp. simpl. unfold SizeT.max. lia.
Qed.

(** A new fixed adapter of capacity 4. *)
Lemma over_pop_wraps_size_witness :
  let a := Fifo_array.make [7; 7; 7; 7] in
  0 <= 4 < SizeT.max
  /\ Fifo_array.bounded 4 a
  /\ Fifo_array.size (Fifo_array.pop_front 4 a) = SizeT.max
  /\ Fifo_array.empty (Fifo_array.pop_front 4 a) = false.
Proof.
  intros a.
  assert (HN : 0 <= 4 < SizeT.max) by size_t_lia.
  assert (Hb : Fifo_array.bounded 4 a)
    by (unfold Fifo_array.bounded; simpl; lia).
  destruct (over_pop_wraps_size Z 4 a HN Hb) as (_ & Hpop).
  destruct Hpop as (_ & Hsize & Hempty); [reflexivity | simpl; lia |].
  split; [exact HN |]. split; [exact Hb |]. split; [exact Hsize | exact Hempty].
Defined.

(** X2. In the fixed adapter, whatever defined calls are made (also
    [pop_front] on an empty adapter), both cursors stay within [0, N]
    and the array keeps its [N] elements; so [data()] never points
    outside the array: [N - pop_offset] elements lie from it on. *)
Theorem produced_cursors_within_array (T : Type) (N : Z) (s : Fifo_array.t T) :
  0 <= N < SizeT.max ->
  Fifo_array.produced N s ->
  Fifo_array.bounded N s
  /\ Z.of_nat (length (Fifo_array.data s)) = N - Fifo_array.pop_offset_ s.
Proof.
  intros HN Hs.
  pose proof (Fifo_array_facts.bounded_produced N HN s Hs) as Hb.
  split; [exact Hb |]. destruct Hb as (Hlen & Hpop & Hpush).
  unfold Fifo_array.data. rewrite length_drop. lia.
Qed.

(** Five calls of [pop_front] on a new adapter of capacity 4. *)
Lemma produced_cursors_within_array_witness :
  let s := Fifo_array.pop_n 4 5 (Fifo_array.make [7; 7; 7; 7]) in
  0 <= 4 < SizeT.max
  /\ Fifo_array.produced 4 s
  /\ Fifo_array.bounded 4 s
  /\ Z.of_nat (length (Fifo_array.data s)) = 4 - Fifo_array.pop_offset_ s.
Proof.
  intros s.
  assert (HN : 0 <= 4 < SizeT.max) by size_t_lia.
  assert (Hpop : forall x : Fifo_array.t Z,
             Fifo_array.produced 4 x ->
             Fifo_array.produced 4 (Fifo_array.pop_front 4 x)).
  { intros x Hx.
    exact (Fifo_array.produced_run 4 Fifo_array.Pop_front x _ Hx eq_refl). }
  assert (Hs : Fifo_array.produced 4 s).
  { unfold s. simpl. do 5 apply Hpop.
    apply Fifo_array.produced_make. reflexivity. }
  split; [exact HN |]. split; [exact Hs |].
  exact (produced_cursors_within_array Z 4 s HN Hs).
Defined.

(** X3. In a fixed adapter with [0 <= pop_offset <= push_offset <= N],
    [size()] is [push_offset - pop_offset], lies between 0 and [N], is
    the number of live elements, and [empty()] is true exactly when the
    two offsets are equal. *)
Theorem consistent_size_is_live_count (T : Type) (N : Z) (s : Fifo_array.t T) :
  0 <= N < SizeT.max ->
  Fifo_array.consistent N s ->
  Fifo_array.size s = Fifo_array.push_offset_ s - Fifo_array.pop_offset_ s
  /\ 0 <= Fifo_array.size s <= N
  /\ Z.of_nat (length (Fifo_array.elements s)) = Fifo_array.size s
  /\ (Fifo_array.empty s = true
      <-> Fifo_array.pop_offset_ s = Fifo_array.push_offset_ s).
Proof.
  intros HN Hc.
  pose proof (Fifo_array_order.array_size_consistent N HN s Hc) as Hsize.
  pose proof (Fifo_array_order.array_elements_consistent N HN s Hc) as Hel.
  destruct Hc as (Hlen & Hpop & Hpush).
  split; [exact Hsize |]. split; [lia |]. split.
  - rewrite Hel, Hsize, length_take, length_drop. lia.
  - unfold Fifo_array.empty. rewrite bool_decide_eq_true, Hsize. lia.
Qed.

(** A fixed adapter of capacity 4 with two live elements. *)
Lemma consistent_size_is_live_count_witness :
  let s := Fifo_array.Mk [1; 2; 3; 0] 1 3 in
  0 <= 4 < SizeT.max
  /\ Fifo_array.consistent 4 s
  /\ Fifo_array.size s = 2
  /\ Z.of_nat (length (Fifo_array.elements s)) = Fifo_array.size s.
Proof.
  intros s.
  assert (HN : 0 <= 4 < SizeT.max) by size_t_lia.
  assert (Hc : Fifo_array.consistent 4 s)
    by (unfold Fifo_array.consistent; simpl; lia).
  destruct (consistent_size_is_live_count Z 4 s HN Hc) as (Hsize & _ & Hlen & _).
  split; [exact HN |]. split; [exact Hc |]. split; [exact Hsize | exact Hlen].
Defined.

(** X4. In a fixed adapter with [0 <= pop_offset <= push_offset < N],
    [push_back(v)] and [emplace_back(v)] are defined and give the same
    state; the live elements are the former ones followed by [v],
    [back()] is [v], [size()] is one more, and [front()] is unchanged
    when the adapter was not empty. *)
Theorem push_back_appends (T : Type) (N : Z) (v : T) (s : Fifo_array.t T) :
  0 <= N < SizeT.max ->
  Fifo_array.consistent N s ->
  Fifo_array.push_offset_ s < N ->
  exists s' : Fifo_array.t T,
    Fifo_array.push_back N v s = Some s'
    /\ Fifo_array.emplace_back N v s = Some s'
    /\ Fifo_array.consistent N s'
    /\ Fifo_array.elements s' = Fifo_array.elements s ++ [v]
    /\ Fifo_array.back s' = Some v
    /\ Fifo_array.size s' = Fifo_array.size s + 1
    /\ (Fifo_array.pop_offset_ s < Fifo_array.push_offset_ s ->
        Fifo_array.front s' = Fifo_array.front s).
Proof.
  intros HN Hc Hfree. pose proof Hc as (Hlen & Hpop & Hpush).
  assert (Hpb := Fifo_array_facts.push_back_defined N HN v s).
  eexists. split; [apply Hpb; lia |].
  split; [unfold Fifo_array.emplace_back; apply Hpb; lia |].
  assert (Hc' : Fifo_array.consistent N
                  (Fifo_array.Mk
                     (<[Z.to_nat (Fifo_array.push_offset_ s) := v]>
                        (Fifo_array.data_ s))
                     (Fifo_array.pop_offset_ s)
                     (Fifo_array.push_offset_ s + 1))).
  { unfold Fifo_array.consistent; simpl. rewrite length_insert. lia. }
  split; [exact Hc' |].
  split; [by apply (Fifo_array_order.array_push_back_elements N HN) |].
  split; [| split].
  - unfold Fifo_array.back; simpl. rewrite deref_nonneg by lia.
    replace (Fifo_array.push_offset_ s + 1 - 1)
      with (Fifo_array.push_offset_ s) by lia.
    apply list_lookup_insert_eq. lia.
  - rewrite (Fifo_array_order.array_size_consistent N HN _ Hc').
    rewrite (Fifo_array_order.array_size_consistent N HN _ Hc). simpl. lia.
  - intros Hlive. unfold Fifo_array.front; simpl.
    rewrite !deref_nonneg by lia. apply list_lookup_insert_ne. lia.
Qed.

(** A push on a fixed adapter of capacity 4 with one live element. *)
Lemma push_back_appends_witness :
  let s := Fifo_array.Mk [1; 2; 0; 0] 1 2 in
  0 <= 4 < SizeT.max
  /\ Fifo_array.consistent 4 s
  /\ Fifo_array.push_offset_ s < 4
  /\ exists s' : Fifo_array.t Z,
       Fifo_array.push_back 4 9 s = Some s'
       /\ Fifo_array.elements s' = Fifo_array.elements s ++ [9]
       /\ Fifo_array.back s' = Some 9.
Proof.
  intros s.
  assert (HN : 0 <= 4 < SizeT.max) by size_t_lia.
  assert (Hc : Fifo_array.consistent 4 s)
    by (unfold Fifo_array.consistent; simpl; lia).
  assert (Hfree : Fifo_array.push_offset_ s < 4) by (simpl; lia).
  destruct (push_back_appends Z 4 9 s HN Hc Hfree)
    as (s' & Hpush & _ & _ & Hel & Hback & _).
  split; [exact HN |]. split; [exact Hc |]. split; [exact Hfree |].
  exists s'. split; [exact Hpush |]. split; [exact Hel | exact Hback].
Defined.

(** X5. In a fixed adapter with [0 <= pop_offset < push_offset <= N],
    [front()] is defined and is the first live element, and
    [pop_front()] removes exactly that element: the live elements
    afterwards are the former ones without the first, and [size()] is
    one less. *)
Theorem pop_front_removes_front (T : Type) (N : Z) (s : Fifo_array.t T) :
  0 <= N < SizeT.max ->
  Fifo_array.consistent N s ->
  Fifo_array.pop_offset_ s < Fifo_array.push_offset_ s ->
  exists x : T,
    Fifo_array.front s = Some x
    /\ Fifo_array.elements s
       = x :: Fifo_array.elements (Fifo_array.pop_front N s)
    /\ Fifo_array.size (Fifo_array.pop_front N s) = Fifo_array.size s - 1.
Proof.
  intros HN Hc Hlive. pose proof Hc as (Hlen & Hpop & Hpush).
  destruct (lookup_lt_is_Some_2 (Fifo_array.data_ s)
              (Z.to_nat (Fifo_array.pop_offset_ s))) as [x Hx]; [lia |].
  exists x. split; [| split].
  - unfold Fifo_array.front. by rewrite deref_nonneg by lia.
  - by apply Fifo_array_order.array_pop_front_elements.
  - pose proof (Fifo_array_facts.consistent_pop_front N HN s Hc Hlive) as Hc'.
    rewrite (Fifo_array_order.array_size_consistent N HN _ Hc').
    rewrite (Fifo_array_order.array_size_consistent N HN _ Hc).
    rewrite Fifo_array_facts.array_pop_front_live by lia. simpl. lia.
Qed.

(** A pop on a fixed adapter of capacity 4 with two live elements. *)
Lemma pop_front_removes_front_witness :
  let s := Fifo_array.Mk [1; 2; 3; 0] 1 3 in
  0 <= 4 < SizeT.max
  /\ Fifo_array.consistent 4 s
  /\ Fifo_array.pop_offset_ s < Fifo_array.push_offset_ s
  /\ exists x : Z,
       Fifo_array.front s = Some x
       /\ Fifo_array.elements s
          = x :: Fifo_array.elements (Fifo_array.pop_front 4 s).
Proof.
  intros s.
  assert (HN : 0 <= 4 < SizeT.max) by size_t_lia.
  assert (Hc : Fifo_array.consistent 4 s)
    by (unfold Fifo_array.consistent; simpl; lia).
  assert (Hlive : Fifo_array.pop_offset_ s < Fifo_array.push_offset_ s)
    by (simpl; lia).
  destruct (pop_front_removes_front Z 4 s HN Hc Hlive) as (x & Hx & Hel & _).
  split; [exact HN |]. split; [exact Hc |]. split; [exact Hlive |].
  exists x. split; [exact Hx | exact Hel].
Defined.

(** ** Further properties of the growable adapter *)



(** X7. In a growable adapter whose offset is below the length of its
    storage, [front()] is defined and is the first character of
    [view()], and [pop_front()] removes exactly that character from the
    view; [size()] is one less. *)
Theorem pop_front_removes_first_char
    (CharT : Type) (max_size : Z) (s : Fifo_string.t CharT) :
  0 <= max_size < SizeT.max ->
  Fifo_string.typed max_size s ->
  Fifo_string.offset_ s < Fifo_string.data_size s ->
  exists c : CharT,
    Fifo_string.front s = Some c
    /\ Fifo_string.view s = c :: Fifo_string.view (Fifo_string.pop_front s)
    /\ Fifo_string.size (Fifo_string.pop_front s) = Fifo_string.size s - 1.
Proof.
  intros HM Ht Hlive. pose proof Ht as (Hd & Ho).
  unfold SizeT.in_range in Ho.
  assert (Hi : Fifo_string.inv s) by (unfold Fifo_string.inv; lia).
  destruct (lookup_lt_is_Some_2 (Fifo_string.data_ s)
              (Z.to_nat (Fifo_string.offset_ s))) as [c Hc];
    [unfold Fifo_string.data_size in *; lia |].
  exists c. split; [| split].
  - unfold Fifo_string.front. by rewrite deref_nonneg by lia.
  - by apply (Fifo_string_order.string_pop_front_view max_size HM).
  - destruct (Fifo_string_facts.good_run max_size HM Fifo_string.Pop_front
                s _ Ht Hi eq_refl) as [Ht' Hi'].
    rewrite (Fifo_string_facts.size_exact max_size HM _ Ht' Hi').
    rewrite (Fifo_string_facts.size_exact max_size HM _ Ht Hi).
    rewrite Fifo_string_facts.string_pop_front_live by lia.
    unfold Fifo_string.data_size; simpl. lia.
Qed.

(** A pop on "abc" whose first character has been popped. *)
Lemma pop_front_removes_first_char_witness :
  let s := Fifo_string.Mk ["a"; "b"; "c"]%char 1 in
  0 <= 1024 < SizeT.max
  /\ Fifo_string.typed 1024 s
  /\ Fifo_string.offset_ s < Fifo_string.data_size s
  /\ exists c : ascii,
       Fifo_string.front s = Some c
       /\ Fifo_string.view s = c :: Fifo_string.view (Fifo_string.pop_front s).
Proof.
  intros s.
  assert (HM : 0 <= 1024 < SizeT.max) by size_t_lia.
  assert (Ht : Fifo_string.typed 1024 s)
    by (unfold Fifo_string.typed, Fifo_string.data_size; size_t_lia).
  assert (Hlive : Fifo_string.offset_ s < Fifo_string.data_size s)
    by (unfold Fifo_string.data_size; simpl; lia).
  destruct (pop_front_removes_first_char ascii 1024 s HM Ht Hlive)
    as (c & Hc & Hview & _).
  split; [exact HM |]. split; [exact Ht |]. split; [exact Hlive |].
  exists c. split; [exact Hc | exact Hview].
Defined.

(** X11. In a growable adapter whose characters have all been popped
    (the offset is the length of a non-empty storage), [empty()] is
    true, [view()] is empty and [front()] is outside the string, but
    [back()] still returns the last character of the storage:
    [back()] does not look at the offset, and no number of pops changes
    it. *)
Theorem back_ignores_offset
    (CharT : Type) (s : Fifo_string.t CharT) (n : nat) :
  Fifo_string.data_ s <> [] ->
  Fifo_string.offset_ s = Fifo_string.data_size s ->
  Fifo_string.empty s = true
  /\ Fifo_string.view s = []
  /\ Fifo_string.front s = None
  /\ is_Some (Fifo_string.back s)
  /\ Fifo_string.back (Fifo_string.pop_n n s) = Fifo_string.back s.
Proof.
  intros Hne Hend.
  assert (Hsize : Fifo_string.size s = 0).
  { unfold Fifo_string.size. rewrite Hend. apply SizeT_facts.sub_diag. }
  split; [| split; [| split; [| split]]].
  - unfold Fifo_string.empty. by apply bool_decide_eq_true.
  - unfold Fifo_string.view. by rewrite Hsize.
  - unfold Fifo_string.front. rewrite Hend. unfold Fifo_string.data_size.
    rewrite deref_nonneg by lia. apply lookup_ge_None_2. lia.
  - unfold Fifo_string.back. by apply last_is_Some.
  - unfold Fifo_string.back. by rewrite Fifo_string_facts.pop_n_data.
Qed.

(** "ab" with both characters popped. *)
Lemma back_ignores_offset_witness :
  let s := Fifo_string.Mk ["a"; "b"]%char 2 in
  Fifo_string.data_ s <> []
  /\ Fifo_string.offset_ s = Fifo_string.data_size s
  /\ Fifo_string.empty s = true
  /\ Fifo_string.front s = None
  /\ is_Some (Fifo_string.back s).
Proof.
  intros s.
  assert (Hne : Fifo_string.data_ s <> []) by (simpl; discriminate).
  assert (Hend : Fifo_string.offset_ s = Fifo_string.data_size s)
    by reflexivity.
  destruct (back_ignores_offset ascii s 0 Hne Hend)
    as (Hempty & _ & Hfront & Hback & _).
  split; [exact Hne |]. split; [exact Hend |]. split; [exact Hempty |].
  split; [exact Hfront | exact Hback].
Defined.

(** X13. In a growable adapter whose offset is within its storage,
    [view()] is the whole of the storage from the offset on (it ends
    where the string ends) and its length is [size()]. *)
Theorem view_is_storage_from_offset
    (CharT : Type) (max_size : Z) (s : Fifo_string.t CharT) :
  0 <= max_size < SizeT.max ->
  Fifo_string.typed max_size s ->
  Fifo_string.inv s ->
  Fifo_string.view s
  = drop (Z.to_nat (Fifo_string.offset_ s)) (Fifo_string.data_ s)
  /\ Z.of_nat (length (Fifo_string.view s)) = Fifo_string.size s
  /\ take (Z.to_nat (Fifo_string.offset_ s)) (Fifo_string.data_ s)
     ++ Fifo_string.view s
     = Fifo_string.data_ s.
Proof.
  intros HM Ht Hi.
  pose proof (Fifo_string_order.string_view_remaining max_size HM s Ht Hi)
    as Hview.
  pose proof (Fifo_string_facts.size_exact max_size HM s Ht Hi) as Hsize.
  destruct Ht as (Hd & Ho). unfold SizeT.in_range, Fifo_string.inv in *.
  rewrite Hview, Hsize. unfold Fifo_string.data.
  split; [reflexivity |]. split.
  - rewrite length_drop. unfold Fifo_string.data_size in *. lia.
  - apply take_drop.
Qed.

(** "abc" with one character popped. *)
Lemma view_is_storage_from_offset_witness :
  let s := Fifo_string.Mk ["a"; "b"; "c"]%char 1 in
  0 <= 1024 < SizeT.max
  /\ Fifo_string.typed 1024 s
  /\ Fifo_string.inv s
  /\ Fifo_string.view s = ["b"; "c"]%char
  /\ Z.of_nat (length (Fifo_string.view s)) = Fifo_string.size s.
Proof.
  intros s.
  assert (HM : 0 <= 1024 < SizeT.max) by size_t_lia.
  assert (Ht : Fifo_string.typed 1024 s)
    by (unfold Fifo_string.typed, Fifo_string.data_size; size_t_lia).
  assert (Hi : Fifo_string.inv s)
    by (unfold Fifo_string.inv, Fifo_string.data_size; simpl; lia).
  destruct (view_is_storage_from_offset ascii 1024 s HM Ht Hi)
    as (Hview & Hlen & _).
  split; [exact HM |]. split; [exact Ht |]. split; [exact Hi |].
  split; [exact Hview | exact Hlen].
Defined.

(** X14. A growable adapter constructed from a string [d] no longer
    than [max_size()] starts with all of [d] live: [view()] is [d],
    [size()] its length, [front()] its first character, [back()] its
    last, and [empty()] is true exactly when [d] is empty. *)
Theorem constructed_from_string
    (CharT : Type) (max_size : Z) (d : list CharT) :
  0 <= max_size < SizeT.max ->
  Z.of_nat (length d) <= max_size ->
  Fifo_string.view (Fifo_string.make d) = d
  /\ Fifo_string.size (Fifo_string.make d) = Z.of_nat (length d)
  /\ Fifo_string.front (Fifo_string.make d) = head d
  /\ Fifo_string.back (Fifo_string.make d) = list.last d
  /\ (Fifo_string.empty (Fifo_string.make d) = true <-> d = []).
Proof.
  intros HM Hd.
  pose proof (Fifo_string_facts.whole_size max_size HM d Hd) as Hsize.
  split; [by apply (Fifo_string_facts.whole_view max_size) |].
  split; [exact Hsize |].
  split; [apply Fifo_string_facts.whole_front |]. split; [reflexivity |].
  unfold Fifo_string.empty, Fifo_string.make.
  rewrite bool_decide_eq_true, Hsize. destruct d; simpl; split; (done || lia).
Qed.

(** An adapter constructed from "ab". *)
Lemma constructed_from_string_witness :
  0 <= 1024 < SizeT.max
  /\ Z.of_nat (length ["a"; "b"]%char) <= 1024
  /\ Fifo_string.view (Fifo_string.make ["a"; "b"]%char) = ["a"; "b"]%char
  /\ Fifo_string.size (Fifo_string.make ["a"; "b"]%char) = 2.
Proof.
  assert (HM : 0 <= 1024 < SizeT.max) by size_t_lia.
  assert (Hd : Z.of_nat (length ["a"; "b"]%char) <= 1024) by (simpl; lia).
  destruct (constructed_from_string ascii 1024 ["a"; "b"]%char HM Hd)
    as (Hview & Hsize & _).
  split; [exact HM |]. split; [exact Hd |]. split; [exact Hview | exact Hsize].
Defined.

(** ** Further properties shared by the two adapters *)

(** X8. In either adapter with a positive pop offset inside the buffer,
    [unpop_front] followed by [pop_front] gives back the same state:
    undoing a pop and popping again is the identity. *)
Theorem unpop_front_pop_front_round_trip
    (T : Type) (N : Z) (a : Fifo_array.t T)
    (CharT : Type) (max_size : Z) (g : Fifo_string.t CharT) :
  0 <= N < SizeT.max ->
  Fifo_array.bounded N a ->
  0 < Fifo_array.pop_offset_ a ->
  0 <= max_size < SizeT.max ->
  Fifo_string.typed max_size g ->
  Fifo_string.inv g ->
  0 < Fifo_string.offset_ g ->
  Fifo_array.pop_front N (Fifo_array.unpop_front a) = a
  /\ Fifo_string.pop_front (Fifo_string.unpop_front g) = g.
Proof.
  intros HN (Hlen & Hpop & Hpush) Hpos HM (Hd & Ho) Hi Hgpos.
  unfold Fifo_string.inv in Hi. split.
  - apply (Fifo_array_order.array_pop_unpop N HN). lia.
  - apply Fifo_string_order.string_pop_unpop; lia.
Qed.

(** A fixed adapter popped past its live end and a growable adapter
    popped to its end. *)
Lemma unpop_front_pop_front_round_trip_witness :
  let a := Fifo_array.Mk [1; 2; 3; 0] 4 3 in
  let g := Fifo_string.Mk ["a"; "b"]%char 2 in
  (0 <= 4 < SizeT.max
   /\ Fifo_array.bounded 4 a
   /\ 0 < Fifo_array.pop_offset_ a
   /\ 0 <= 1024 < SizeT.max
   /\ Fifo_string.typed 1024 g
   /\ Fifo_string.inv g
   /\ 0 < Fifo_string.offset_ g)
  /\ Fifo_array.pop_front 4 (Fifo_array.unpop_front a) = a
  /\ Fifo_string.pop_front (Fifo_string.unpop_front g) = g.
Proof.
  intros a g.
  assert (HN : 0 <= 4 < SizeT.max) by size_t_lia.
  assert (Hb : Fifo_array.bounded 4 a)
    by (unfold Fifo_array.bounded; simpl; lia).
  assert (Hpos : 0 < Fifo_array.pop_offset_ a) by (simpl; lia).
  assert (HM : 0 <= 1024 < SizeT.max) by size_t_lia.
  assert (Ht : Fifo_string.typed 1024 g)
    by (unfold Fifo_string.typed, Fifo_string.data_size; size_t_lia).
  assert (Hi : Fifo_string.inv g)
    by (unfold Fifo_string.inv, Fifo_string.data_size; simpl; lia).
  assert (Hgpos : 0 < Fifo_string.offset_ g) by (simpl; lia).
  split.
  - split; [exact HN |]. split; [exact Hb |]. split; [exact Hpos |].
    split; [exact HM |]. split; [exact Ht |]. split; [exact Hi | exact Hgpos].
  - exact (unpop_front_pop_front_round_trip Z 4 a ascii 1024 g
             HN Hb Hpos HM Ht Hi Hgpos).
Defined.

(** X9. Repeated calls saturate. In either adapter with its pop offset
    inside the buffer, [n] calls of [pop_front] move the offset to
    [min (offset + n) bound] (the bound is [N] for the fixed adapter
    and the length of the storage for the growable one) and [n] calls
    of [unpop_front] to [max (offset - n) 0]; with [n] at least the
    offset, [n] calls of [unpop_front] do what [unpop_all] does; and
    [n] pops that stay inside the buffer are undone by [n] unpops. *)
Theorem repeated_pops_saturate
    (T : Type) (N : Z) (a : Fifo_array.t T)
    (CharT : Type) (max_size : Z) (g : Fifo_string.t CharT) (n : nat) :
  0 <= N < SizeT.max ->
  Fifo_array.bounded N a ->
  0 <= max_size < SizeT.max ->
  Fifo_string.typed max_size g ->
  Fifo_string.inv g ->
  (Fifo_array.pop_offset_ (Fifo_array.pop_n N n a)
   = Z.min (Fifo_array.pop_offset_ a + Z.of_nat n) N
   /\ Fifo_array.pop_offset_ (Fifo_array.unpop_n n a)
      = Z.max (Fifo_array.pop_offset_ a - Z.of_nat n) 0
   /\ (Fifo_array.pop_offset_ a <= Z.of_nat n ->
       Fifo_array.unpop_n n a = Fifo_array.unpop_all a)
   /\ (Fifo_array.pop_offset_ a + Z.of_nat n <= N ->
       Fifo_array.unpop_n n (Fifo_array.pop_n N n a) = a))
  /\ (Fifo_string.offset_ (Fifo_string.pop_n n g)
      = Z.min (Fifo_string.offset_ g + Z.of_nat n) (Fifo_string.data_size g)
      /\ Fifo_string.offset_ (Fifo_string.unpop_n n g)
         = Z.max (Fifo_string.offset_ g - Z.of_nat n) 0
      /\ (Fifo_string.offset_ g <= Z.of_nat n ->
          Fifo_string.unpop_n n g = Fifo_string.unpop_all g)
      /\ (Fifo_string.offset_ g + Z.of_nat n <= Fifo_string.data_size g ->
          Fifo_string.unpop_n n (Fifo_string.pop_n n g) = g)
      /\ (Fifo_string.size g <= Z.of_nat n ->
          Fifo_string.empty (Fifo_string.pop_n n g) = true)).
Proof.
  intros HN (Hlen & Hpop & Hpush) HM Ht Hi.
  pose proof (Fifo_string_facts.size_exact max_size HM g Ht Hi) as Hsize.
  destruct Ht as (Hd & Ho). unfold SizeT.in_range, Fifo_string.inv in *.
  pose proof (Fifo_array_order.array_pop_n_saturates N HN n a Hpop) as Hpn.
  assert (Hun : forall s : Fifo_array.t T,
             0 <= Fifo_array.pop_offset_ s <= N ->
             Fifo_array.unpop_n n s
             = Fifo_array.Mk (Fifo_array.data_ s)
                 (Z.max (Fifo_array.pop_offset_ s - Z.of_nat n) 0)
                 (Fifo_array.push_offset_ s)).
  { intros s Hs. apply Fifo_array_order.array_unpop_n_saturates. lia. }
  assert (Hgpn : Fifo_string.pop_n n g
                 = Fifo_string.Mk (Fifo_string.data_ g)
                     (Z.min (Fifo_string.offset_ g + Z.of_nat n)
                            (Fifo_string.data_size g)))
    by (apply Fifo_string_order.string_pop_n_saturates; lia).
  assert (Hgun : forall s : Fifo_string.t CharT,
             0 <= Fifo_string.offset_ s <= Fifo_string.data_size g ->
             Fifo_string.unpop_n n s
             = Fifo_string.Mk (Fifo_string.data_ s)
                 (Z.max (Fifo_string.offset_ s - Z.of_nat n) 0)).
  { intros s Hs. apply Fifo_string_order.string_unpop_n_saturates. lia. }
  split.
  - split; [by rewrite Hpn |]. split; [by rewrite Hun |]. split.
    + intros Hall. rewrite Hun by done. unfold Fifo_array.unpop_all.
      f_equal. lia.
    + intros Hin. rewrite Hpn, Hun by (simpl; lia). simpl.
      replace (Z.max (Z.min (Fifo_array.pop_offset_ a + Z.of_nat n) N
                      - Z.of_nat n) 0)
        with (Fifo_array.pop_offset_ a) by lia.
      apply Fifo_array_facts.array_eta.
  - split; [by rewrite Hgpn |]. split; [by rewrite Hgun by lia |].
    split; [| split].
    + intros Hall. rewrite Hgun by lia. unfold Fifo_string.unpop_all.
      f_equal. lia.
    + intros Hin. rewrite Hgpn, Hgun by (simpl; lia). simpl.
      replace (Z.max (Z.min (Fifo_string.offset_ g + Z.of_nat n)
                            (Fifo_string.data_size g) - Z.of_nat n) 0)
        with (Fifo_string.offset_ g) by lia.
      apply Fifo_string_facts.string_eta.
    + intros Hdrain. rewrite Hgpn. unfold Fifo_string.empty, Fifo_string.size.
      apply bool_decide_eq_true. simpl.
      change (Fifo_string.data_size
                (Fifo_string.Mk (Fifo_string.data_ g)
                   (Z.min (Fifo_string.offset_ g + Z.of_nat n)
                          (Fifo_string.data_size g))))
        with (Fifo_string.data_size g).
      rewrite Z.min_r by lia. apply SizeT_facts.sub_diag.
Qed.

(** Seven pops and unpops on a fixed adapter of capacity 4 and on "ab". *)
Lemma repeated_pops_saturate_witness :
  let a := Fifo_array.Mk [1; 2; 3; 0] 1 3 in
  let g := Fifo_string.Mk ["a"; "b"]%char 1 in
  (0 <= 4 < SizeT.max
   /\ Fifo_array.bounded 4 a
   /\ 0 <= 1024 < SizeT.max
   /\ Fifo_string.typed 1024 g
   /\ Fifo_string.inv g)
  /\ Fifo_array.pop_offset_ (Fifo_array.pop_n 4 7 a) = 4
  /\ Fifo_array.pop_offset_ (Fifo_array.unpop_n 7 a) = 0
  /\ Fifo_string.offset_ (Fifo_string.pop_n 7 g) = 2
  /\ Fifo_string.offset_ (Fifo_string.unpop_n 7 g) = 0.
Proof.
  intros a g.
  assert (HN : 0 <= 4 < SizeT.max) by size_t_lia.
  assert (Hb : Fifo_array.bounded 4 a)
    by (unfold Fifo_array.bounded; simpl; lia).
  assert (HM : 0 <= 1024 < SizeT.max) by size_t_lia.
  assert (Ht : Fifo_string.typed 1024 g)
    by (unfold Fifo_string.typed, Fifo_string.data_size; size_t_lia).
  assert (Hi : Fifo_string.inv g)
    by (unfold Fifo_string.inv, Fifo_string.data_size; simpl; lia).
  destruct (repeated_pops_saturate Z 4 a ascii 1024 g 7 HN Hb HM Ht Hi)
    as ((Hp & Hu & _) & (Hgp & Hgu & _)).
  split.
  - split; [exact HN |]. split; [exact Hb |]. split; [exact HM |].
    split; [exact Ht | exact Hi].
  - split; [exact Hp |]. split; [exact Hu |]. split; [exact Hgp | exact Hgu].
Defined.

(** X10. First in, first out. After the values [vs] have been pushed on
    an empty adapter (within the capacity for the fixed one) and
    [pop_front] has been called [k <= length vs] times, the live
    elements are [vs] without its first [k] values, [size()] is
    [length vs - k], and [front()] is the value pushed at position [k]
    when there is one left. *)
Theorem kth_pop_reaches_kth_push
    (T : Type) (N : Z) (d vs : list T) (k : nat)
    (CharT : Type) (max_size : Z) (ws : list CharT) (j : nat) :
  0 <= N < SizeT.max ->
  Z.of_nat (length d) = N ->
  Z.of_nat (length vs) <= N ->
  (k <= length vs)%nat ->
  0 <= max_size < SizeT.max ->
  Z.of_nat (length ws) <= max_size ->
  (j <= length ws)%nat ->
  (exists s : Fifo_array.t T,
      Fifo_array.push_all N vs (Fifo_array.make d) = Some s
      /\ Fifo_array.elements (Fifo_array.pop_n N k s) = drop k vs
      /\ Fifo_array.size (Fifo_array.pop_n N k s)
         = Z.of_nat (length vs) - Z.of_nat k
      /\ ((k < length vs)%nat ->
          Fifo_array.front (Fifo_array.pop_n N k s) = vs !! k))
  /\ (exists g : Fifo_string.t CharT,
        Fifo_string.push_all max_size ws (Fifo_string.make []) = Some g
        /\ Fifo_string.view (Fifo_string.pop_n j g) = drop j ws
        /\ Fifo_string.size (Fifo_string.pop_n j g)
           = Z.of_nat (length ws) - Z.of_nat j
        /\ Fifo_string.front (Fifo_string.pop_n j g) = ws !! j).
Proof.
  intros HN Hd Hvs Hk HM Hws Hj. split.
  - eexists. split; [by apply Fifo_array_facts.push_all_make |].
    rewrite Fifo_array_order.array_pop_n_saturates by (simpl; lia). simpl.
    replace (Z.min (0 + Z.of_nat k) N) with (Z.of_nat k) by lia.
    set (rest := drop (length vs) d).
    assert (Hc : Fifo_array.consistent N
                   (Fifo_array.Mk (vs ++ rest) (Z.of_nat k)
                                  (Z.of_nat (length vs)))).
    { unfold Fifo_array.consistent; simpl. subst rest.
      rewrite length_app, length_drop. lia. }
    split; [| split].
    + rewrite (Fifo_array_order.array_elements_consistent N HN _ Hc). simpl.
      rewrite !Nat2Z.id. rewrite drop_app_le by lia.
      apply take_app_length'. rewrite length_drop. lia.
    + rewrite (Fifo_array_order.array_size_consistent N HN _ Hc). reflexivity.
    + intros Hlt. unfold Fifo_array.front; simpl.
      rewrite deref_nonneg, Nat2Z.id by lia. by apply lookup_app_l.
  - eexists. split; [by apply Fifo_string_facts.push_all_fresh |].
    assert (Hpop : Fifo_string.pop_n j (Fifo_string.Mk ws 0)
                   = Fifo_string.Mk ws (Z.of_nat j)).
    { rewrite Fifo_string_order.string_pop_n_saturates
        by (unfold Fifo_string.data_size; simpl; lia).
      unfold Fifo_string.data_size; simpl. f_equal. lia. }
    rewrite Hpop.
    assert (Hgood : Fifo_string.typed max_size (Fifo_string.Mk ws (Z.of_nat j))
                    /\ Fifo_string.inv (Fifo_string.Mk ws (Z.of_nat j))).
    { unfold Fifo_string.typed, Fifo_string.inv, Fifo_string.data_size,
        SizeT.in_range; simpl. lia. }
    destruct Hgood as [Ht Hi]. split; [| split].
    + rewrite (Fifo_string_order.string_view_remaining max_size HM _ Ht Hi).
      unfold Fifo_string.data; simpl. by rewrite Nat2Z.id.
    + rewrite (Fifo_string_facts.size_exact max_size HM _ Ht Hi). reflexivity.
    + unfold Fifo_string.front; simpl.
      rewrite deref_nonneg, Nat2Z.id by lia. reflexivity.
Qed.

(** Three pushes and one pop on a fixed adapter of capacity 4 and on a
    growable adapter. *)
Lemma kth_pop_reaches_kth_push_witness :
  (0 <= 4 < SizeT.max
   /\ Z.of_nat (length [0; 0; 0; 0]) = 4
   /\ Z.of_nat (length [1; 2; 3]) <= 4
   /\ (1 <= length [1; 2; 3])%nat
   /\ 0 <= 1024 < SizeT.max
   /\ Z.of_nat (length ["a"; "b"; "c"]%char) <= 1024
   /\ (1 <= length ["a"; "b"; "c"]%char)%nat)
  /\ (exists s : Fifo_array.t Z,
        Fifo_array.push_all 4 [1; 2; 3] (Fifo_array.make [0; 0; 0; 0]) = Some s
        /\ Fifo_array.elements (Fifo_array.pop_n 4 1 s) = [2; 3])
  /\ (exists g : Fifo_string.t ascii,
        Fifo_string.push_all 1024 ["a"; "b"; "c"]%char (Fifo_string.make [])
        = Some g
        /\ Fifo_string.view (Fifo_string.pop_n 1 g) = ["b"; "c"]%char).
Proof.
  assert (HN : 0 <= 4 < SizeT.max) by size_t_lia.
  assert (Hd : Z.of_nat (length [0; 0; 0; 0]) = 4) by reflexivity.
  assert (Hvs : Z.of_nat (length [1; 2; 3]) <= 4) by (simpl; lia).
  assert (Hk : (1 <= length [1; 2; 3])%nat) by (simpl; lia).
  assert (HM : 0 <= 1024 < SizeT.max) by size_t_lia.
  assert (Hws : Z.of_nat (length ["a"; "b"; "c"]%char) <= 1024)
    by (simpl; lia).
  assert (Hj : (1 <= length ["a"; "b"; "c"]%char)%nat) by (simpl; lia).
  destruct (kth_pop_reaches_kth_push Z 4 [0; 0; 0; 0] [1; 2; 3] 1
              ascii 1024 ["a"; "b"; "c"]%char 1 HN Hd Hvs Hk HM Hws Hj)
    as ((s & Hs & Hel & _) & (g & Hg & Hview & _)).
  split; [| split].
  - split; [exact HN |]. split; [exact Hd |]. split; [exact Hvs |].
    split; [exact Hk |]. split; [exact HM |]. split; [exact Hws | exact Hj].
  - exists s. split; [exact Hs | exact Hel].
  - exists g. split; [exact Hg | exact Hview].
Defined.



(** X15. A fixed adapter that was popped past its live end is brought
    back by [unpop_all] or [clear]: from any state with both cursors
    inside the array, each of the two gives a state with
    [0 <= pop_offset <= push_offset <= N], and in the state of
    [unpop_all] [size()] is the push offset. *)
Theorem unpop_all_and_clear_recover (T : Type) (N : Z) (s : Fifo_array.t T) :
  0 <= N < SizeT.max ->
  Fifo_array.bounded N s ->
  Fifo_array.consistent N (Fifo_array.unpop_all s)
  /\ Fifo_array.size (Fifo_array.unpop_all s) = Fifo_array.push_offset_ s
  /\ Fifo_array.consistent N (Fifo_array.clear s).
Proof.
  intros HN (Hlen & Hpop & Hpush).
  assert (Hc : Fifo_array.consistent N (Fifo_array.unpop_all s))
    by (unfold Fifo_array.consistent; simpl; lia).
  split; [exact Hc |]. split.
  - rewrite (Fifo_array_order.array_size_consistent N HN _ Hc). simpl. lia.
  - unfold Fifo_array.consistent; simpl. lia.
Qed.

(** A fixed adapter of capacity 4 popped past its three live elements. *)
Lemma unpop_all_and_clear_recover_witness :
  let s := Fifo_array.Mk [1; 2; 3; 0] 4 3 in
  0 <= 4 < SizeT.max
  /\ Fifo_array.bounded 4 s
  /\ ~ Fifo_array.consistent 4 s
  /\ Fifo_array.consistent 4 (Fifo_array.unpop_all s)
  /\ Fifo_array.size (Fifo_array.unpop_all s) = 3.
Proof.
  intros s.
  assert (HN : 0 <= 4 < SizeT.max) by size_t_lia.
  assert (Hb : Fifo_array.bounded 4 s)
    by (unfold Fifo_array.bounded; simpl; lia).
  destruct (unpop_all_and_clear_recover Z 4 s HN Hb) as (Hc & Hsize & _).
  split; [exact HN |]. split; [exact Hb |]. split.
  - unfold Fifo_array.consistent; simpl. lia.
  - split; [exact Hc | exact Hsize].
Defined.
